(** * United Payment client: session lifecycle and response normalisation

    A shallow embedding of [united_payment/client.py] (class
    [UnitedPaymentAPI]) and the properties of its token handling, its
    line parser and its error detection pass.

    Conventions of the embedding:
    - a Python [str] is the list of its Unicode code points;
    - the instance fields that the methods mutate live in a [Client]
      record, everything outside the process (clock, network, standard
      output) lives in a [World] record, and a method is a function from
      both to a result and the two updated records;
    - an exception is a value of [exn]; a method that raises returns
      [Raise e] together with the state at the point of the raise. *)

From Stdlib Require Import ZArith NArith List Ascii String Bool Lia.
From stdpp Require Import gmap list.

Open Scope Z_scope.

(** ** Strings *)

Abbreviation char := N (only parsing).
Abbreviation str := (list N) (only parsing).

(** A string literal of the source, as code points. *)
Definition u (s : string) : str :=
  List.map N_of_ascii (list_ascii_of_string s).

(** The line separator ['\n']. *)
Definition NL : char := 10%N.

(** [str.isspace] on one code point (CPython's [_PyUnicode_IsWhitespace]):
    the characters that [str.strip()] removes. *)
Definition isspace (c : char) : bool :=
  ((9 <=? c) && (c <=? 13) || (28 <=? c) && (c <=? 32)
   || (c =? 133) || (c =? 160) || (c =? 5760)
   || (8192 <=? c) && (c <=? 8202)
   || (c =? 8232) || (c =? 8233) || (c =? 8239) || (c =? 8287)
   || (c =? 12288))%N.

Fixpoint lstrip (s : str) : str :=
  match s with
  | c :: s' => if isspace c then lstrip s' else s
  | [] => []
  end.

Definition rstrip (s : str) : str := rev (lstrip (rev s)).

(** [s.strip()] *)
Definition strip (s : str) : str := rstrip (lstrip s).

Fixpoint startswith (p s : str) : bool :=
  match p, s with
  | [], _ => true
  | _ :: _, [] => false
  | a :: p', b :: s' => (a =? b)%N && startswith p' s'
  end.

(** [sep in s] *)
Fixpoint contains (sep s : str) : bool :=
  startswith sep s ||
  match s with
  | [] => false
  | _ :: s' => contains sep s'
  end.

(** The cut of [s] at the leftmost occurrence of [sep], when there is one:
    the text before it and the text after it. *)
Fixpoint partition (sep s : str) : option (str * str) :=
  if startswith sep s then Some ([], drop (length sep) s)
  else match s with
       | [] => None
       | c :: s' =>
           match partition sep s' with
           | Some (a, b) => Some (c :: a, b)
           | None => None
           end
       end.

(** [s.split(sep, 1)]: at most one cut, so one or two pieces. *)
Definition split_once (sep s : str) : list str :=
  match partition sep s with
  | Some (a, b) => [a; b]
  | None => [s]
  end.

(** [s.split(c)] for a separator of one character: every occurrence cuts,
    and the empty string gives one empty piece. *)
Fixpoint split_on (c : char) (s : str) : list str :=
  match s with
  | [] => [[]]
  | x :: s' =>
      if (x =? c)%N then [] :: split_on c s'
      else match split_on c s' with
           | piece :: pieces => (x :: piece) :: pieces
           | [] => [[x]]
           end
  end.

(** ** Exceptions and results *)

Inductive exn : Type :=
| UnitedPaymentAPIException (msg : str)
| RequestException (msg : str)
    (* requests.RequestException as raised by the transport
       (ConnectionError, Timeout, ...) *)
| JSONDecodeError (msg : str)
    (* requests.exceptions.JSONDecodeError: a RequestException that is
       also a ValueError *)
| ValueError
| AttributeError
| TypeError
| UnboundLocalError.

(** [except ValueError] *)
Definition is_ValueError (e : exn) : bool :=
  match e with
  | JSONDecodeError _ | ValueError => true
  | _ => false
  end.

(** [except requests.RequestException as e], giving [str(e)]. *)
Definition as_RequestException (e : exn) : option str :=
  match e with
  | RequestException msg | JSONDecodeError msg => Some msg
  | _ => None
  end.

Inductive result (A : Type) : Type :=
| Ok (a : A)
| Raise (e : exn).
Arguments Ok {A} a.
Arguments Raise {A} e.

Definition result_bind {A B} (m : result A) (k : A -> result B) : result B :=
  match m with
  | Ok a => k a
  | Raise e => Raise e
  end.

Notation "x <-? m ;; k" := (result_bind m (fun x => k))
  (at level 100, m at next level, right associativity).

(** A [for] loop whose body may raise, threading the loop's variable. *)
Fixpoint for_each {A S} (items : list A) (acc : S)
    (body : S -> A -> result S) : result S :=
  match items with
  | [] => Ok acc
  | x :: rest => acc' <-? body acc x ;; for_each rest acc' body
  end.

(** [a, b = l] *)
Definition unpack2 {A} (l : list A) : result (A * A) :=
  match l with
  | [a; b] => Ok (a, b)
  | _ => Raise ValueError
  end.

(** ** Python values seen by the client *)

(** A value found in a decoded JSON object. Strings and [None] are kept
    as they are; any other object (number, boolean, list, nested object)
    is kept as the three observations the client can make of it: its truth
    value, whether it can be hashed, and its [str()]. *)
Inductive pyval : Type :=
| PyNone
| PyStr (s : str)
| PyOther (truth hashable : bool) (shown : str).

(** Truth value, as tested by [not x] and [x or y]. *)
Definition truthy (v : pyval) : bool :=
  match v with
  | PyNone => false
  | PyStr s => negb (Nat.eqb (length s) 0)
  | PyOther t _ _ => t
  end.

(** [str(v)], as used by an f-string field [{v}]. *)
Definition py_str (v : pyval) : str :=
  match v with
  | PyNone => u "None"
  | PyStr s => s
  | PyOther _ _ shown => shown
  end.

(** What [response.json()] can return: a [dict], or some other value. *)
Inductive json : Type :=
| JsonDict (d : list (str * pyval))
| JsonOther (v : pyval).

Inductive pyclass : Type := dict_class | list_class | str_class.

(** An object is an instance (here: a decoded JSON value) or a class. *)
Inductive pyobj : Type :=
| Instance (v : json)
| Class (c : pyclass).

Definition pyclass_eqb (a b : pyclass) : bool :=
  match a, b with
  | dict_class, dict_class | list_class, list_class
  | str_class, str_class => true
  | _, _ => false
  end.

(** [o is c] for a class [c]: object identity with the class object. *)
Definition py_is_class (o : pyobj) (c : pyclass) : bool :=
  match o with
  | Class c' => pyclass_eqb c' c
  | Instance _ => false
  end.

Fixpoint assoc_get (d : list (str * pyval)) (key : str) : pyval :=
  match d with
  | [] => PyNone
  | (k, v) :: d' => if decide (k = key) then v else assoc_get d' key
  end.

(** [o.get(key)]: the value or [None] on a dict, no such attribute on
    another instance, and an unbound method on the class itself. *)
Definition py_get (o : pyobj) (key : str) : result pyval :=
  match o with
  | Instance (JsonDict d) => Ok (assoc_get d key)
  | Instance (JsonOther _) => Raise AttributeError
  | Class _ => Raise TypeError
  end.

(** ** HTTP messages *)

Record Response : Type := {
  status_code : Z;
  text : str;
  (* what [response.json()] does: the decoded value, or the message of the
     error it raises when the body does not decode *)
  json_body : json + str
}.

Inductive http_method : Type := GET | POST.

Record Request : Type := {
  req_method : http_method;
  req_url : str;
  req_headers : gmap str str;
  req_params : option (list (str * str));  (* [params=] *)
  req_json : option (list (str * str))     (* [json=] *)
}.

(** ** The line parser *)

(** The body of the loop of [parse_response], on the mapping built so far
    and the next line. *)
Definition parse_line (parsed_result : gmap str str) (line : str)
    : result (gmap str str) :=
  if contains (u ": ") line then
    kv <-? unpack2 (split_once (u ": ") line) ;;
    let '(key, value) := kv in
    Ok (<[strip key := strip value]> parsed_result)
  else Ok parsed_result.

(** [parse_response]: the method reads no field of the instance, so it is a
    function of the response alone. *)
Definition parse_response (response : Response) : result (gmap str str) :=
  let result := strip (text response) in
  for_each (split_on NL result) ∅ parse_line.

(** ** The client and its environment *)

(** A point in time ([datetime]), in microseconds. *)
Abbreviation time := Z (only parsing).

(** [timedelta(minutes=n)] *)
Definition minutes (n : Z) : Z := n * 60 * 1000000.

(** The instance fields of [UnitedPaymentAPI]. *)
Record Client : Type := {
  base_url : str;
  email : str;
  password : str;
  token : pyval;
  token_expiry : option time
}.

Definition set_token (v : pyval) (c : Client) : Client :=
  {| base_url := base_url c; email := email c; password := password c;
     token := v; token_expiry := token_expiry c |}.

Definition set_token_expiry (t : option time) (c : Client) : Client :=
  {| base_url := base_url c; email := email c; password := password c;
     token := token c; token_expiry := t |}.

(** What the network does with one request: after [latency] microseconds
    it delivers a response, or the transport gives up with an error. *)
Record Outcome : Type := {
  latency : Z;
  reply : Response + str
}.

(** Everything outside the instance.
    - [clock] is what [datetime.now()] returns; it moves while a request is
      in flight.
    - [network] scripts the outcomes of the requests still to come, in
      order; with none left the transport cannot connect.
    - [sent] lists the requests handed to the transport so far.
    - [stdout] lists what was printed.
    - [logins] is a history variable: the time and the token of every
      login that completed, oldest first. The code has no such field; only
      [login] extends it, at the point where it has assigned both fields. *)
Record World : Type := {
  clock : time;
  network : list Outcome;
  sent : list Request;
  stdout : list exn;
  logins : list (time * pyval)
}.

(** A method: it may read and assign the instance fields, act on the
    world, and return or raise. *)
Definition M (A : Type) : Type := Client -> World -> result A * Client * World.

Definition ret {A} (a : A) : M A := fun c w => (Ok a, c, w).

Definition raise {A} (e : exn) : M A := fun c w => (Raise e, c, w).

Definition bind {A B} (m : M A) (k : A -> M B) : M B :=
  fun c w =>
    match m c w with
    | (Ok a, c', w') => k a c' w'
    | (Raise e, c', w') => (Raise e, c', w')
    end.

Notation "x <- m ;; k" := (bind m (fun x => k))
  (at level 100, m at next level, right associativity).
Notation "m ;; k" := (bind m (fun _ => k))
  (at level 100, right associativity).

(** A pure computation that may raise, run inside a method. *)
Definition lift {A} (r : result A) : M A := fun c w => (r, c, w).

(** [self], for reading fields. *)
Definition self : M Client := fun c w => (Ok c, c, w).

(** [self.token = v] and [self.token_expiry = t] *)
Definition assign_token (v : pyval) : M unit :=
  fun c w => (Ok tt, set_token v c, w).

Definition assign_token_expiry (t : time) : M unit :=
  fun c w => (Ok tt, set_token_expiry (Some t) c, w).

(** [datetime.now()] *)
Definition datetime_now : M time := fun c w => (Ok (clock w), c, w).

(** [print(e)] *)
Definition print (e : exn) : M unit :=
  fun c w =>
    (Ok tt, c,
     {| clock := clock w; network := network w; sent := sent w;
        stdout := stdout w ++ [e]; logins := logins w |}).

(** The history variable's only writer. *)
Definition record_login : M unit :=
  fun c w =>
    (Ok tt, c,
     {| clock := clock w; network := network w; sent := sent w;
        stdout := stdout w;
        logins := logins w ++ [(clock w, token c)] |}).

(** Hand a request to the transport: it is logged, the next scripted
    outcome is consumed and its latency elapses. *)
Definition transport (req : Request) : M Response :=
  fun c w =>
    match network w with
    | [] =>
        (Raise (RequestException []), c,
         {| clock := clock w; network := []; sent := sent w ++ [req];
            stdout := stdout w; logins := logins w |})
    | o :: rest =>
        let w' := {| clock := clock w + latency o; network := rest;
                     sent := sent w ++ [req];
                     stdout := stdout w; logins := logins w |} in
        match reply o with
        | inl response => (Ok response, c, w')
        | inr msg => (Raise (RequestException msg), c, w')
        end
    end.

(** [requests.post(url, headers=headers, json=data)] *)
Definition requests_post (url : str) (headers : gmap str str)
    (data : list (str * str)) : M Response :=
  transport {| req_method := POST; req_url := url; req_headers := headers;
               req_params := None; req_json := Some data |}.

(** [requests.get(url, headers=headers, params=data)] *)
Definition requests_get (url : str) (headers : gmap str str)
    (data : list (str * str)) : M Response :=
  transport {| req_method := GET; req_url := url; req_headers := headers;
               req_params := Some data; req_json := None |}.

(** [response.json()] *)
Definition response_json (response : Response) : result json :=
  match json_body response with
  | inl v => Ok v
  | inr msg => Raise (JSONDecodeError msg)
  end.

(** [try: body except ValueError: handler] *)
Definition try_except_ValueError {A} (body : M A) (handler : M A) : M A :=
  fun c w =>
    match body c w with
    | (Raise e, c', w') =>
        if is_ValueError e then handler c' w' else (Raise e, c', w')
    | r => r
    end.

(** [try: body except requests.RequestException as e: handler(str(e))] *)
Definition try_except_RequestException {A} (body : M A)
    (handler : str -> M A) : M A :=
  fun c w =>
    match body c w with
    | (Raise e, c', w') =>
        match as_RequestException e with
        | Some msg => handler msg c' w'
        | None => (Raise e, c', w')
        end
    | r => r
    end.

(** ** Session manager *)

(** [login] *)
Definition login : M unit :=
  c <- self ;;
  let login_url := base_url c ++ u "/auth/" in
  let headers : gmap str str :=
    {[ u "Content-Type" := u "application/json" ]} in
  let data := [(u "email", email c); (u "password", password c)] in
  response <- requests_post login_url headers data ;;
  if status_code response =? 200 then
    body <- lift (response_json response) ;;
    tok <- lift (py_get (Instance body) (u "token")) ;;
    assign_token tok ;;
    now <- datetime_now ;;
    assign_token_expiry (now + minutes 57) ;;
    record_login
  else
    raise (UnitedPaymentAPIException (u "Failed to login and retrieve token.")).

(** [is_token_expired] *)
Definition is_token_expired : M bool :=
  c <- self ;;
  match token_expiry c with
  | None => ret true
  | Some expiry =>
      now <- datetime_now ;;
      ret (expiry <=? now)
  end.

(** [update_token] *)
Definition update_token : M unit :=
  expired <- is_token_expired ;;
  if expired then login else ret tt.

(** [set_headers] *)
Definition set_headers : M (gmap str str) :=
  c <- self ;;
  (if negb (truthy (token c)) then update_token else ret tt) ;;
  c <- self ;;
  ret ({[ u "x-auth-token" := u "Bearer " ++ py_str (token c);
          u "Content-Type" := u "application/json" ]} : gmap str str).

(** [__init__]: the instance as the constructor leaves it, when it
    returns. *)
Definition init (base_url email password : str) : World -> result Client * World :=
  fun w =>
    let c := {| base_url := base_url; email := email; password := password;
                token := PyNone; token_expiry := None |} in
    match login c w with
    | (Ok _, c', w') => (Ok c', w')
    | (Raise e, _, w') => (Raise e, w')
    end.

(** ** Error detection and dispatch *)

Section Dispatcher.

(** [str.upper], a function of the Python runtime (Unicode case mapping). *)
Variable upper : str -> str.

(** [UnitedPaymentAPIException.error_codes]: the catalog is declared in
    [united_payment/exceptions.py]; it maps a code to its message. *)
Variable error_codes : gmap str str.

(** [v in error_codes]: the keys are strings, so another hashable value
    is no key, and an unhashable one cannot be looked up. *)
Definition in_error_codes (v : pyval) : result bool :=
  match v with
  | PyNone => Ok false
  | PyStr s => Ok (bool_decide (is_Some (error_codes !! s)))
  | PyOther _ hashable _ => if hashable then Ok false else Raise TypeError
  end.

(** [error_codes[v]], for a [v] that is a key. *)
Definition error_codes_item (v : pyval) : str :=
  match v with
  | PyStr s => default [] (error_codes !! s)
  | _ => []
  end.

(** [handle_response_errors] *)
Definition handle_response_errors (response : Response) : M unit :=
  if negb (status_code response =? 200) then
    try_except_ValueError
      (response_data <- lift (response_json response) ;;
       if py_is_class (Instance response_data) dict_class then
         first <- lift (py_get (Instance response_data) (u "errorCode")) ;;
         error_code <-
           (if truthy first then ret first
            else lift (py_get (Instance response_data) (u "error"))) ;;
         known <- lift (in_error_codes error_code) ;;
         if known then
           raise (UnitedPaymentAPIException
                    (u "Error " ++ py_str error_code ++ u ": "
                     ++ error_codes_item error_code))
         else ret tt
       else ret tt)
      (print (UnitedPaymentAPIException
                (u "Failed to process response: "
                 ++ match text response with
                    | [] => u "Empty response"
                    | body => body
                    end)))
  else ret tt.

(** Reading a local variable that may not have been assigned. *)
Definition read_local {A} (v : option A) : M A :=
  match v with
  | Some a => ret a
  | None => raise UnboundLocalError
  end.

(** [make_request] *)
Definition make_request (endpoint : str) (data : list (str * str))
    (method : str) : M (gmap str str) :=
  update_token ;;
  c <- self ;;
  let url := base_url c ++ endpoint in
  headers <- set_headers ;;
  try_except_RequestException
    (response <-
       (if bool_decide (upper method = u "GET") then
          r <- requests_get url headers data ;; ret (Some r)
        else if bool_decide (upper method = u "POST") then
          r <- requests_post url headers data ;; ret (Some r)
        else ret None) ;;
     response <- read_local response ;;
     handle_response_errors response ;;
     lift (parse_response response))
    (fun msg =>
       raise (UnitedPaymentAPIException (u "Request failed: " ++ msg))).

(** [if v: data[key] = v] for an optional string argument. *)
Definition add_if (key : str) (v : option str)
    (data : list (str * str)) : list (str * str) :=
  match v with
  | Some (c :: s) => data ++ [(key, c :: s)]
  | _ => data
  end.

(** [pay_by_link_qr_code] *)
Definition pay_by_link_qr_code (email : str)
    (amount installment telephone member_id order_id description : option str)
    : M str :=
  c <- self ;;
  let url := base_url c ++ u "/transactions/create-pay-link" in
  headers <- set_headers ;;
  let data := [(u "email", email)] in
  let data := add_if (u "installment") installment data in
  let data := add_if (u "description") description data in
  let data := add_if (u "telephone") telephone data in
  let data := add_if (u "memberId") member_id data in
  let data := add_if (u "orderId") order_id data in
  let data := add_if (u "amount") amount data in
  response <- requests_post url headers data ;;
  handle_response_errors response ;;
  ret (text response).

(** [reversal] *)
Definition reversal (transaction_id : str) : M (gmap str str) :=
  let data := [(u "transactionId", transaction_id)] in
  make_request (u "/transactions/reverse") data (u "POST").

(** [get_agreement_detail] *)
Definition get_agreement_detail (start_date end_date : str)
    : M (gmap str str) :=
  let params := [(u "startDate", start_date); (u "endDate", end_date)] in
  make_request (u "/aggrement/GetAggrementDetail") params (u "GET").

End Dispatcher.

(** ** Operation builders *)

(** Modelled from the spec: the enumerations [Language] and [Currency] are
    declared in [united_payment/constants.py]; their members are passed by
    value into the payload. A member is kept as the two things the builders
    use of it: its [.value] and its truth value. *)
Record EnumMember : Type := {
  value : str;
  member_truth : bool
}.


Section Builders.

Variable upper : str -> str.
Variable error_codes : gmap str str.












(** [installment]: the number of installments is a required argument, and
    is left out of the payload when it is the empty string. *)
Definition installment (amount : str) (language : EnumMember)
    (success_url cancel_url decline_url installment : str)
    (member_id : option str) : M (gmap str str) :=
  let data := [(u "amount", amount); (u "language", value language);
               (u "successUrl", success_url); (u "cancelUrl", cancel_url);
               (u "declineUrl", decline_url)] in
  let data := add_if (u "memberId") member_id data in
  let data := add_if (u "installment") (Some installment) data in
  make_request upper error_codes (u "/transactions/taksit") data (u "POST").



End Builders.






(** The payload of a request: its JSON body or its query parameters. *)
Definition req_payload (req : Request) : list (str * str) :=
  match req_json req, req_params req with
  | Some data, _ => data
  | None, Some data => data
  | None, None => []
  end.

(** ** Specification vocabulary *)

(** [sep] occurs in [line]. *)
Definition has_sep (sep line : str) : Prop :=
  exists k v, line = k ++ sep ++ v.

(** [k] and [v] are what is left and right of the first occurrence of
    [sep] in [line]. *)
Definition first_cut (sep line k v : str) : Prop :=
  line = k ++ sep ++ v /\
  forall k' v', line = k' ++ sep ++ v' -> (length k <= length k')%nat.

(** The normalisation of a list of lines as the specification words it:
    a line with the separator is cut once at its first occurrence, both
    sides are trimmed and the pair is inserted; a line without it is
    dropped. [normalizes lines m m'] relates the mapping before the lines
    to the mapping after them. *)
Inductive normalizes : list str -> gmap str str -> gmap str str -> Prop :=
| normalizes_done m :
    normalizes [] m m
| normalizes_insert line lines k v m m' :
    first_cut (u ": ") line k v ->
    normalizes lines (<[strip k := strip v]> m) m' ->
    normalizes (line :: lines) m m'
| normalizes_drop line lines m m' :
    ~ has_sep (u ": ") line ->
    normalizes lines m m' ->
    normalizes (line :: lines) m m'.

(** [s] is [sep.join(pieces)]. *)
Fixpoint join (c : char) (pieces : list str) : str :=
  match pieces with
  | [] => []
  | [piece] => piece
  | piece :: rest => piece ++ c :: join c rest
  end.

(** The request that [login] sends. *)
Definition login_request (c : Client) : Request :=
  {| req_method := POST;
     req_url := base_url c ++ u "/auth/";
     req_headers := {[ u "Content-Type" := u "application/json" ]};
     req_params := None;
     req_json := Some [(u "email", email c); (u "password", password c)] |}.

(** The headers of the gateway for a token. *)
Definition auth_headers (tok : pyval) : gmap str str :=
  {[ u "x-auth-token" := u "Bearer " ++ py_str tok;
     u "Content-Type" := u "application/json" ]}.

(** The headers as the specification's dispatcher section words them. *)
Definition authorization_headers (tok : pyval) : gmap str str :=
  {[ u "Authorization" := u "Bearer " ++ py_str tok;
     u "Content-Type" := u "application/json" ]}.

(** No expiry is recorded, or the clock has reached it. *)
Definition expired (c : Client) (w : World) : Prop :=
  match token_expiry c with
  | None => True
  | Some expiry => expiry <= clock w
  end.

(** The session invariant: before any login both fields are [None];
    afterwards they are what the latest completed login stored, the token
    it received and its time plus 57 minutes. *)
Definition session_inv (c : Client) (w : World) : Prop :=
  (logins w = [] /\ token c = PyNone /\ token_expiry c = None) \/
  (exists t, last (logins w) = Some (t, token c) /\
             token_expiry c = Some (t + minutes 57)).

(** The calls a user of the class can make. The sixteen operation builders
    other than [pay_by_link_qr_code] end in one [make_request] on a payload
    they assemble from their arguments; [call_make_request] stands for all
    of them, two are listed as they are. *)
Inductive method_call : Type :=
| call_login
| call_is_token_expired
| call_update_token
| call_set_headers
| call_parse_response (response : Response)
| call_handle_response_errors (response : Response)
| call_make_request (endpoint : str) (data : list (str * str)) (method : str)
| call_pay_by_link_qr_code (email : str)
    (amount installment telephone member_id order_id description : option str)
| call_reversal (transaction_id : str)
| call_get_agreement_detail (start_date end_date : str).

Definition discard {A} (m : M A) : M unit := _ <- m ;; ret tt.

Definition run_call (upper : str -> str) (error_codes : gmap str str)
    (call : method_call) : M unit :=
  match call with
  | call_login => login
  | call_is_token_expired => discard is_token_expired
  | call_update_token => update_token
  | call_set_headers => discard set_headers
  | call_parse_response response => discard (lift (parse_response response))
  | call_handle_response_errors response =>
      handle_response_errors error_codes response
  | call_make_request endpoint data method =>
      discard (make_request upper error_codes endpoint data method)
  | call_pay_by_link_qr_code email amount installment telephone member_id
      order_id description =>
      discard (pay_by_link_qr_code error_codes email amount installment
                 telephone member_id order_id description)
  | call_reversal transaction_id =>
      discard (reversal upper error_codes transaction_id)
  | call_get_agreement_detail start_date end_date =>
      discard (get_agreement_detail upper error_codes start_date end_date)
  end.

(** The token phase of [make_request]: what it does before the [try]. *)
Definition token_phase : M (gmap str str) :=
  update_token ;; set_headers.

(** The [try] statement of [make_request], for the URL and the headers
    computed before it. *)
Definition dispatch (upper : str -> str) (error_codes : gmap str str)
    (url : str) (headers : gmap str str) (data : list (str * str))
    (method : str) : M (gmap str str) :=
  try_except_RequestException
    (response <-
       (if bool_decide (upper method = u "GET") then
          r <- requests_get url headers data ;; ret (Some r)
        else if bool_decide (upper method = u "POST") then
          r <- requests_post url headers data ;; ret (Some r)
        else ret None) ;;
     response <- read_local response ;;
     handle_response_errors error_codes response ;;
     lift (parse_response response))
    (fun msg =>
       raise (UnitedPaymentAPIException (u "Request failed: " ++ msg))).

(** The request that [make_request] sends for a method it knows. *)
Definition api_request (m : http_method) (url : str) (headers : gmap str str)
    (data : list (str * str)) : Request :=
  match m with
  | GET => {| req_method := GET; req_url := url; req_headers := headers;
              req_params := Some data; req_json := None |}
  | POST => {| req_method := POST; req_url := url; req_headers := headers;
               req_params := None; req_json := Some data |}
  end.

(** The request that [pay_by_link_qr_code] sends. *)
Definition pay_link_request (base : str) (headers : gmap str str) (email : str)
    (amount installment telephone member_id order_id description : option str)
    : Request :=
  api_request POST (base ++ u "/transactions/create-pay-link") headers
    (add_if (u "amount") amount
       (add_if (u "orderId") order_id
          (add_if (u "memberId") member_id
             (add_if (u "telephone") telephone
                (add_if (u "description") description
                   (add_if (u "installment") installment
                      [(u "email", email)])))))).

(** The world after [print(e)]. *)
Definition printed (w : World) (out : list exn) : World :=
  {| clock := clock w; network := network w; sent := sent w;
     stdout := stdout w ++ out; logins := logins w |}.

(** What [handle_response_errors] prints for a response. *)
Definition diagnostics (response : Response) : list exn :=
  if status_code response =? 200 then []
  else match json_body response with
       | inl _ => []
       | inr _ =>
           [UnitedPaymentAPIException
              (u "Failed to process response: "
               ++ match text response with
                  | [] => u "Empty response"
                  | body => body
                  end)]
       end.

(** The HTTP method that [make_request] finds in its [method] argument. *)
Definition known_method (upper : str -> str) (method : str)
    : option http_method :=
  if bool_decide (upper method = u "GET") then Some GET
  else if bool_decide (upper method = u "POST") then Some POST
  else None.

(** How the two session fields may differ between two states: not at all,
    no login having completed in between; or they are what the latest
    login completed in between stored, its token and its time plus 57
    minutes. *)
Definition session_change (c : Client) (w : World) (c' : Client) (w' : World)
    : Prop :=
  (c' = c /\ logins w' = logins w) \/
  (exists t more,
     logins w' = logins w ++ more ++ [(t, token c')] /\
     token_expiry c' = Some (t + minutes 57)).

(** What the token handling may do between two states: the account is
    the same, the requests sent are logins, and the session fields change
    by logins only. *)
Definition session_step (c : Client) (w : World) (c' : Client) (w' : World)
    : Prop :=
  login_request c' = login_request c /\
  base_url c' = base_url c /\
  (exists extra, sent w' = sent w ++ extra /\
                 Forall (fun req => req = login_request c) extra) /\
  session_change c w c' w'.

(** ** Three sentences of the specification, as they are worded *)

(** The headers of a request are [Authorization] and [Content-Type]. *)
Definition headers_are_authorization : Prop :=
  forall (c : Client) (w : World) headers c' w',
    set_headers c w = (Ok headers, c', w') ->
    headers = authorization_headers (token c').

(** With a token that is not [None] and an expiry that has passed,
    [pay_by_link_qr_code] sends its request with the stale token and
    no login is performed. *)
Definition pay_by_link_never_logs_in : Prop :=
  forall codes email amount installment telephone member_id order_id
         description (c : Client) (w : World) expiry r c' w',
    token c <> PyNone ->
    token_expiry c = Some expiry -> expiry <= clock w ->
    pay_by_link_qr_code codes email amount installment telephone member_id
      order_id description c w = (r, c', w') ->
    logins w' = logins w /\
    sent w' = sent w ++
      [pay_link_request (base_url c) (auth_headers (token c)) email amount
         installment telephone member_id order_id description].

(** With a method that is neither GET nor POST, [make_request] sends no
    request and fails with an error that is neither a [RequestException]
    nor a [UnitedPaymentAPIException]. *)
Definition unknown_method_sends_nothing : Prop :=
  forall upper codes endpoint data method (c : Client) (w : World) r c' w',
    upper method <> u "GET" -> upper method <> u "POST" ->
    make_request upper codes endpoint data method c w = (r, c', w') ->
    sent w' = sent w /\
    exists e, r = Raise e /\ as_RequestException e = None /\
              forall msg, e <> UnitedPaymentAPIException msg.

(** ** Concrete runs *)

(** [str.upper] on the letters a to z; other characters are kept. *)
Definition upper_ascii (s : str) : str :=
  List.map (fun c => if ((97 <=? c) && (c <=? 122))%N then (c - 32)%N else c) s.

(** A catalog with two entries, for running the code. *)
Definition sample_codes : gmap str str :=
  {[ u "101" := u "Invalid amount"; u "AUTH_FAILED" := u "Authentication failed" ]}.

Definition sample_client (tok : pyval) (expiry : option time) : Client :=
  {| base_url := u "https://gw.example/api"; email := u "shop@example.com";
     password := u "secret"; token := tok; token_expiry := expiry |}.

Definition sample_world (now : time) (net : list Outcome) : World :=
  {| clock := now; network := net; sent := []; stdout := []; logins := [] |}.

Definition respond (status : Z) (body : str) (decoded : json + str) : Outcome :=
  {| latency := 250000;
     reply := inl {| status_code := status; text := body;
                     json_body := decoded |} |}.

Definition text_response (status : Z) (body : str) : Response :=
  {| status_code := status; text := body; json_body := inr (u "Expecting value") |}.

(** A response with status 400 whose body decodes to
    [{"errorCode": "101"}]. *)
Definition known_error_response : Response :=
  {| status_code := 400;
     text := u "{" ++ [34%N] ++ u "errorCode" ++ [34%N] ++ u ": "
             ++ [34%N] ++ u "101" ++ [34%N] ++ u "}";
     json_body := inl (JsonDict [(u "errorCode", PyStr (u "101"))]) |}.

(** The same body under status 200. *)
Definition known_error_response_200 : Response :=
  {| status_code := 200; text := text known_error_response;
     json_body := json_body known_error_response |}.

(** A login response carrying the token ["tok-2"]. *)
Definition token_reply : Outcome :=
  respond 200 (u "{}") (inl (JsonDict [(u "token", PyStr (u "tok-2"))])).

(** * Properties *)

(** ** String primitives *)

Lemma startswith_app (p t : str) : startswith p (p ++ t) = true.
Proof.
  induction p as [|a p IH]; simpl; [reflexivity|].
  rewrite N.eqb_refl. exact IH.
Qed.

Lemma startswith_drop (p s : str) :
  startswith p s = true -> s = p ++ drop (length p) s.
Proof.
  revert s. induction p as [|a p IH]; intros s H; simpl in *.
  - now rewrite drop_0.
  - destruct s as [|b s]; [discriminate|].
    apply andb_true_iff in H as [Hab Hps].
    apply N.eqb_eq in Hab. subst b. simpl. f_equal. now apply IH.
Qed.

Lemma startswith_spec (p s : str) :
  startswith p s = true <-> exists t, s = p ++ t.
Proof.
  split.
  - intros H. eexists. now apply startswith_drop.
  - intros [t ->]. apply startswith_app.
Qed.

Lemma contains_spec (sep s : str) :
  contains sep s = true <-> has_sep sep s.
Proof.
  unfold has_sep. induction s as [|c s IH]; simpl.
  - rewrite orb_false_r, startswith_spec. split.
    + intros [t Ht]. exists [], t. exact Ht.
    + intros (k & v & H). destruct k; [|discriminate]. now exists v.
  - rewrite orb_true_iff, startswith_spec, IH. split.
    + intros [[t Ht]|(k & v & Hkv)].
      * exists [], t. exact Ht.
      * exists (c :: k), v. simpl. now rewrite Hkv.
    + intros (k & v & H). destruct k as [|c' k]; simpl in H.
      * left. now exists v.
      * right. injection H as _ H. now exists k, v.
Qed.

Lemma partition_contains (sep s : str) :
  contains sep s = true -> exists a b, partition sep s = Some (a, b).
Proof.
  induction s as [|c s IH]; simpl.
  - destruct (startswith sep []); [eauto | discriminate].
  - destruct (startswith sep (c :: s)); simpl; [eauto|].
    intros H. destruct (IH H) as (a & b & ->). eauto.
Qed.

Lemma partition_first_cut (sep s a b : str) :
  partition sep s = Some (a, b) -> first_cut sep s a b.
Proof.
  revert a b. induction s as [|c s IH]; intros a b; simpl.
  - destruct (startswith sep []) eqn:E; [|discriminate].
    intros [= <- <-]. split; [|simpl; lia].
    now apply startswith_drop in E.
  - destruct (startswith sep (c :: s)) eqn:E.
    + intros [= <- <-]. split; [|simpl; lia].
      now apply startswith_drop in E.
    + destruct (partition sep s) as [[a' b']|] eqn:P; [|discriminate].
      intros [= <- <-]. destruct (IH _ _ eq_refl) as [Hs Hmin]. split.
      * simpl. now rewrite <- Hs.
      * intros k' v' H. destruct k' as [|c' k']; simpl in H.
        -- rewrite H, startswith_app in E. discriminate.
        -- injection H as _ H. simpl. specialize (Hmin _ _ H). lia.
Qed.

Lemma first_cut_unique (sep line k v k' v' : str) :
  first_cut sep line k v -> first_cut sep line k' v' -> k = k' /\ v = v'.
Proof.
  intros [H1 M1] [H2 M2].
  assert (Hlen : length k = length k').
  { apply Nat.le_antisymm; [eapply M1 | eapply M2]; eassumption. }
  rewrite H1 in H2. apply app_inj_1 in H2 as [Hk Hv]; [|exact Hlen].
  split; [exact Hk|]. now apply app_inv_head in Hv.
Qed.

Lemma first_cut_has_sep (sep line k v : str) :
  first_cut sep line k v -> has_sep sep line.
Proof. intros [H _]. now exists k, v. Qed.

(** [split_on] gives the pieces between the separators: joining them
    gives the string back, and no piece holds a separator. *)
Lemma split_on_nonempty (c : char) (s : str) : split_on c s <> [].
Proof.
  destruct s as [|x s]; simpl; [discriminate|].
  destruct (x =? c)%N; [discriminate|].
  destruct (split_on c s); discriminate.
Qed.

Lemma join_split_on (c : char) (s : str) : join c (split_on c s) = s.
Proof.
  induction s as [|x s IH]; simpl; [reflexivity|].
  destruct (x =? c)%N eqn:E.
  - apply N.eqb_eq in E. subst x.
    pose proof (split_on_nonempty c s) as Hne.
    destruct (split_on c s) as [|p ps]; [contradiction|].
    simpl in *. now rewrite IH.
  - pose proof (split_on_nonempty c s) as Hne.
    destruct (split_on c s) as [|p ps]; [contradiction|].
    simpl in *. destruct ps; simpl in *; now rewrite <- IH.
Qed.

Lemma split_on_pieces (c : char) (s : str) :
  Forall (fun piece => c ∉ piece) (split_on c s).
Proof.
  induction s as [|x s IH]; simpl.
  - constructor; [apply not_elem_of_nil | constructor].
  - destruct (x =? c)%N eqn:E.
    + constructor; [apply not_elem_of_nil | exact IH].
    + apply N.eqb_neq in E.
      destruct (split_on c s) as [|p ps]; simpl.
      * constructor; [|constructor].
        intros H. apply list_elem_of_singleton in H. congruence.
      * inversion IH as [|? ? Hp Hps]; subst. constructor; [|exact Hps].
        intros H. apply elem_of_cons in H as [H|H]; [congruence | contradiction].
Qed.

(** [lstrip] removes a prefix of whitespace and stops at the first other
    character. *)
Lemma lstrip_spec (s : str) :
  exists ws, s = ws ++ lstrip s /\
             Forall (fun c => isspace c = true) ws /\
             match lstrip s with
             | c :: _ => isspace c = false
             | [] => True
             end.
Proof.
  induction s as [|c s (ws & Hs & Hws & Hhd)]; simpl.
  - exists []. repeat split; constructor.
  - destruct (isspace c) eqn:E.
    + exists (c :: ws). simpl. rewrite <- Hs. repeat split; [|exact Hhd].
      now constructor.
    + exists []. repeat split; [constructor | exact E].
Qed.

(** [strip] removes whitespace at both ends and nothing else. *)
Lemma strip_spec (s : str) :
  exists ws1 ws2, s = ws1 ++ strip s ++ ws2 /\
                  Forall (fun c => isspace c = true) ws1 /\
                  Forall (fun c => isspace c = true) ws2.
Proof.
  unfold strip, rstrip.
  destruct (lstrip_spec s) as (ws1 & H1 & Hws1 & _).
  destruct (lstrip_spec (rev (lstrip s))) as (ws2 & H2 & Hws2 & _).
  exists ws1, (rev ws2). split; [|split; [exact Hws1|]].
  - rewrite <- rev_app_distr, <- H2, rev_involutive. exact H1.
  - apply Forall_forall. intros c Hc. rewrite Forall_forall in Hws2.
    apply Hws2. apply list_elem_of_In. apply list_elem_of_In in Hc.
    now apply in_rev in Hc.
Qed.

(** ** The line parser *)

Lemma parse_line_cut (m : gmap str str) (line k v : str) :
  partition (u ": ") line = Some (k, v) ->
  parse_line m line = Ok (<[strip k := strip v]> m).
Proof.
  intros P. unfold parse_line, split_once. rewrite P.
  assert (C : contains (u ": ") line = true).
  { apply contains_spec. eapply first_cut_has_sep, partition_first_cut, P. }
  now rewrite C.
Qed.

Lemma parse_line_skip (m : gmap str str) (line : str) :
  contains (u ": ") line = false -> parse_line m line = Ok m.
Proof. intros C. unfold parse_line. now rewrite C. Qed.

(** Every line is either cut and inserted or skipped: the loop body
    returns. *)
Lemma parse_line_cases (m : gmap str str) (line : str) :
  (exists k v, first_cut (u ": ") line k v /\
               parse_line m line = Ok (<[strip k := strip v]> m)) \/
  (~ has_sep (u ": ") line /\ parse_line m line = Ok m).
Proof.
  destruct (contains (u ": ") line) eqn:C.
  - left. destruct (partition_contains _ _ C) as (k & v & P).
    exists k, v. split; [now apply partition_first_cut | now apply parse_line_cut].
  - right. split; [|now apply parse_line_skip].
    intros H. apply contains_spec in H. congruence.
Qed.

Lemma for_each_parse_line (lines : list str) (m : gmap str str) :
  exists d, for_each lines m parse_line = Ok d /\ normalizes lines m d.
Proof.
  revert m. induction lines as [|line lines IH]; intros m; simpl.
  - exists m. split; [reflexivity | constructor].
  - destruct (parse_line_cases m line) as [(k & v & Hcut & ->)|[Hno ->]]; simpl.
    + destruct (IH (<[strip k := strip v]> m)) as (d & Hd & Hn).
      exists d. split; [exact Hd | eapply normalizes_insert; eassumption].
    + destruct (IH m) as (d & Hd & Hn).
      exists d. split; [exact Hd | now apply normalizes_drop].
Qed.

Lemma normalizes_functional (lines : list str) (m d d' : gmap str str) :
  normalizes lines m d -> normalizes lines m d' -> d = d'.
Proof.
  intros H. revert d'.
  induction H as [m|line lines k v m m' Hcut _ IH|line lines m m' Hno _ IH];
    intros d' H'; inversion H'; subst.
  - reflexivity.
  - match goal with
    | Hc : first_cut _ line ?k2 ?v2 |- _ =>
        destruct (first_cut_unique _ _ _ _ _ _ Hcut Hc) as [<- <-]
    end.
    now apply IH.
  - exfalso. eauto using first_cut_has_sep.
  - exfalso. eauto using first_cut_has_sep.
  - now apply IH.
Qed.

Lemma for_each_app {A S} (l1 l2 : list A) (acc : S) (body : S -> A -> result S) :
  for_each (l1 ++ l2) acc body =
  (acc' <-? for_each l1 acc body ;; for_each l2 acc' body).
Proof.
  revert acc. induction l1 as [|x l1 IH]; intros acc; simpl; [reflexivity|].
  destruct (body acc x); simpl; [apply IH | reflexivity].
Qed.

(** C2. The line parser does what the specification words: on the trimmed
    body cut into lines, [parse_response] returns exactly the mapping that
    [normalizes] relates to the empty mapping (each line with [": "] cut
    once at its first occurrence, both sides trimmed, the pair inserted;
    the other lines dropped). The body ["Key1: Val1\nKey2: Val2"] gives
    [{Key1: Val1, Key2: Val2}], and a line without [": "] changes nothing,
    wherever it stands among the lines. *)
Theorem parse_response_normalizes :
  (forall response d,
     parse_response response = Ok d <->
     normalizes (split_on NL (strip (text response))) ∅ d) /\
  parse_response (text_response 200 (u "Key1: Val1" ++ NL :: u "Key2: Val2"))
    = Ok {[ u "Key1" := u "Val1"; u "Key2" := u "Val2" ]} /\
  (forall before after line m,
     contains (u ": ") line = false ->
     for_each (before ++ line :: after) m parse_line
       = for_each (before ++ after) m parse_line) /\
  parse_response
    (text_response 200
       (u "Key1: Val1" ++ NL :: u "no separator" ++ NL :: u "Key2: Val2"))
    = Ok {[ u "Key1" := u "Val1"; u "Key2" := u "Val2" ]}.
Proof.
  split; [|split; [|split]].
  - intros response d. unfold parse_response.
    destruct (for_each_parse_line (split_on NL (strip (text response))) ∅)
      as (d0 & Hd0 & Hn0).
    rewrite Hd0. split.
    + intros [= <-]. exact Hn0.
    + intros Hn. f_equal. eapply normalizes_functional; eassumption.
  - vm_compute. reflexivity.
  - intros before after line m C.
    rewrite !for_each_app. destruct (for_each before m parse_line); simpl;
      [|reflexivity].
    now rewrite (parse_line_skip _ _ C).
  - vm_compute. reflexivity.
Qed.

Lemma parse_response_normalizes_witness :
  for_each ([u "a: 1"] ++ u "junk" :: [u "b: 2"]) ∅ parse_line
    = for_each ([u "a: 1"] ++ [u "b: 2"]) ∅ parse_line.
Proof.
  apply (proj1 (proj2 (proj2 parse_response_normalizes))).
  reflexivity.
Defined.

(** C8. The line parser is total: whatever the body, [parse_response]
    returns a mapping and does not raise; on an empty body the mapping is
    empty. *)
Theorem parse_response_total :
  (forall response, exists d, parse_response response = Ok d) /\
  (forall status decoded,
     parse_response {| status_code := status; text := [];
                       json_body := decoded |} = Ok ∅).
Proof.
  split.
  - intros response. unfold parse_response.
    destruct (for_each_parse_line (split_on NL (strip (text response))) ∅)
      as (d & Hd & _).
    now exists d.
  - intros status decoded. reflexivity.
Qed.

(** ** Running the methods *)

Arguments u : simpl never.
Arguments minutes : simpl never.

(** A world that differs from [w] by some printed lines only. *)
Lemma world_eta (w : World) :
  {| clock := clock w; network := network w; sent := sent w;
     stdout := stdout w; logins := logins w |} = w.
Proof. now destruct w. Qed.

(** What [transport] does to the world, whatever it returns. *)
Lemma transport_run (req : Request) (c : Client) (w : World) r c' w' :
  transport req c w = (r, c', w') ->
  c' = c /\ sent w' = sent w ++ [req] /\ stdout w' = stdout w /\
  logins w' = logins w /\
  match network w with
  | [] => r = Raise (RequestException []) /\ network w' = [] /\
          clock w' = clock w
  | o :: rest =>
      network w' = rest /\ clock w' = clock w + latency o /\
      r = match reply o with
          | inl response => Ok response
          | inr msg => Raise (RequestException msg)
          end
  end.
Proof.
  unfold transport. destruct (network w) as [|o rest].
  - intros [= <- <- <-]. simpl. repeat split.
  - destruct (reply o); intros [= <- <- <-]; simpl; repeat split.
Qed.

(** [login] in one step: one request to [/auth/]; on status 200 with a
    decoded object both fields are assigned, in every other case the
    instance is left as it was. *)
Lemma login_run (c : Client) (w : World) :
  exists r1 w1,
    transport (login_request c) c w = (r1, c, w1) /\
    login c w =
    match r1 with
    | Raise e => (Raise e, c, w1)
    | Ok response =>
        if status_code response =? 200 then
          match json_body response with
          | inr msg => (Raise (JSONDecodeError msg), c, w1)
          | inl (JsonOther _) => (Raise AttributeError, c, w1)
          | inl (JsonDict d) =>
              let tok := assoc_get d (u "token") in
              (Ok tt,
               set_token_expiry (Some (clock w1 + minutes 57)) (set_token tok c),
               {| clock := clock w1; network := network w1; sent := sent w1;
                  stdout := stdout w1;
                  logins := logins w1 ++ [(clock w1, tok)] |})
          end
        else
          (Raise (UnitedPaymentAPIException
                    (u "Failed to login and retrieve token.")), c, w1)
    end.
Proof.
  destruct (transport (login_request c) c w) as [[r1 c1] w1] eqn:T.
  assert (c1 = c) as -> by (now apply transport_run in T).
  exists r1, w1. split; [reflexivity|].
  unfold login, bind, self, requests_post. fold (login_request c).
  rewrite T. destruct r1 as [response|e]; [|reflexivity].
  destruct (status_code response =? 200); [|reflexivity].
  unfold lift, response_json, py_get.
  destruct (json_body response) as [[d|v]|msg]; reflexivity.
Qed.

(** The summary of [login] that the session properties need. *)
Lemma login_spec (c : Client) (w : World) r c' w' :
  login c w = (r, c', w') ->
  sent w' = sent w ++ [login_request c] /\ stdout w' = stdout w /\
  login_request c' = login_request c /\ base_url c' = base_url c /\
  ((exists e, r = Raise e) /\ c' = c /\ logins w' = logins w \/
   r = Ok tt /\ logins w' = logins w ++ [(clock w', token c')] /\
   token_expiry c' = Some (clock w' + minutes 57)).
Proof.
  destruct (login_run c w) as (r1 & w1 & T & ->).
  apply transport_run in T as (_ & Hsent & Hout & Hlog & _).
  destruct r1 as [response|e].
  - destruct (status_code response =? 200).
    + destruct (json_body response) as [[d|v]|msg];
        intros [= <- <- <-]; simpl; rewrite ?Hlog; eauto 10.
    + intros [= <- <- <-]. eauto 10.
  - intros [= <- <- <-]. eauto 10.
Qed.

Lemma is_token_expired_run (c : Client) (w : World) :
  is_token_expired c w =
  (Ok match token_expiry c with
      | None => true
      | Some expiry => expiry <=? clock w
      end, c, w).
Proof.
  unfold is_token_expired, bind, self.
  destruct (token_expiry c); reflexivity.
Qed.

Lemma update_token_run (c : Client) (w : World) :
  update_token c w =
  match token_expiry c with
  | None => login c w
  | Some expiry => if expiry <=? clock w then login c w else (Ok tt, c, w)
  end.
Proof.
  unfold update_token, bind. rewrite is_token_expired_run.
  destruct (token_expiry c) as [expiry|]; [|reflexivity].
  destruct (expiry <=? clock w); reflexivity.
Qed.

(** [update_token] either does nothing, the token being fresh, or is one
    [login], the token being expired. *)
Lemma update_token_cases (c : Client) (w : World) :
  (~ expired c w /\ update_token c w = (Ok tt, c, w)) \/
  (expired c w /\ update_token c w = login c w).
Proof.
  rewrite update_token_run. unfold expired.
  destruct (token_expiry c) as [expiry|]; [|now right].
  destruct (Z.leb_spec expiry (clock w)); [right | left]; split;
    (reflexivity || lia).
Qed.

Lemma set_headers_run (c : Client) (w : World) :
  set_headers c w =
  if truthy (token c) then (Ok (auth_headers (token c)), c, w)
  else match update_token c w with
       | (Ok _, c', w') => (Ok (auth_headers (token c')), c', w')
       | (Raise e, c', w') => (Raise e, c', w')
       end.
Proof.
  unfold set_headers, bind, self, ret.
  destruct (truthy (token c)); simpl; [reflexivity|].
  destruct (update_token c w) as [[[[]|e] c'] w']; reflexivity.
Qed.

Lemma printed_nil (w : World) : printed w [] = w.
Proof. unfold printed. rewrite app_nil_r. apply world_eta. Qed.

(** [handle_response_errors] returns for every response: the test
    [response_data is dict] compares a decoded value with the class
    [dict] and fails, so the branch that raises is never entered; the
    only effect is the diagnostic printed for a body that does not
    decode. *)
Lemma handle_response_errors_run (codes : gmap str str) (response : Response)
    (c : Client) (w : World) :
  handle_response_errors codes response c w
  = (Ok tt, c, printed w (diagnostics response)).
Proof.
  unfold handle_response_errors, diagnostics.
  destruct (status_code response =? 200); simpl.
  - now rewrite printed_nil.
  - unfold try_except_ValueError, bind, lift, response_json.
    destruct (json_body response) as [v|msg]; simpl.
    + now rewrite printed_nil.
    + reflexivity.
Qed.

(** ** Steps of the session *)

Lemma session_inv_frame (c c' : Client) (w w' : World) :
  token c' = token c -> token_expiry c' = token_expiry c ->
  logins w' = logins w -> session_inv c w -> session_inv c' w'.
Proof. unfold session_inv. intros -> -> ->. tauto. Qed.

Lemma session_change_refl (c : Client) (w : World) : session_change c w c w.
Proof. now left. Qed.

Lemma session_change_trans c w c1 w1 c2 w2 :
  session_change c w c1 w1 -> session_change c1 w1 c2 w2 ->
  session_change c w c2 w2.
Proof.
  intros [[-> L1]|(t1 & m1 & L1 & E1)] [[-> L2]|(t2 & m2 & L2 & E2)].
  - left. split; [reflexivity | congruence].
  - right. exists t2, m2. rewrite <- L1. auto.
  - right. exists t1, m1. rewrite L2. auto.
  - right. exists t2, (m1 ++ [(t1, token c1)] ++ m2). split; [|exact E2].
    rewrite L2, L1. now rewrite <- !app_assoc.
Qed.

(** A change by logins only keeps the session invariant. *)
Lemma session_change_inv c w c' w' :
  session_change c w c' w' -> session_inv c w -> session_inv c' w'.
Proof.
  intros [[-> L]|(t & more & L & E)].
  - now apply session_inv_frame.
  - intros _. right. exists t. split; [|exact E].
    rewrite L, app_assoc. apply last_snoc.
Qed.

Lemma session_step_refl (c : Client) (w : World) : session_step c w c w.
Proof.
  repeat split; [|apply session_change_refl].
  exists []. split; [now rewrite app_nil_r | constructor].
Qed.

Lemma session_step_trans c w c1 w1 c2 w2 :
  session_step c w c1 w1 -> session_step c1 w1 c2 w2 ->
  session_step c w c2 w2.
Proof.
  intros (R1 & B1 & (x1 & S1 & F1) & I1) (R2 & B2 & (x2 & S2 & F2) & I2).
  repeat split; [congruence | congruence | |
                 eapply session_change_trans; eassumption].
  exists (x1 ++ x2). split.
  - rewrite S2, S1. now rewrite app_assoc.
  - apply Forall_app. split; [exact F1|]. now rewrite R1 in F2.
Qed.

Lemma login_step (c : Client) (w : World) r c' w' :
  login c w = (r, c', w') -> session_step c w c' w'.
Proof.
  intros H. apply login_spec in H as (Hsent & _ & Hreq & Hbase & Hcases).
  repeat split; [exact Hreq | exact Hbase | |].
  - exists [login_request c]. split; [exact Hsent | now repeat constructor].
  - destruct Hcases as [(_ & -> & Hlog)|(_ & Hlog & Hexp)].
    + now left.
    + right. exists (clock w'), []. split; [exact Hlog | exact Hexp].
Qed.

Lemma update_token_step (c : Client) (w : World) r c' w' :
  update_token c w = (r, c', w') -> session_step c w c' w'.
Proof.
  destruct (update_token_cases c w) as [[_ ->]|[_ ->]].
  - intros [= <- <- <-]. apply session_step_refl.
  - apply login_step.
Qed.

Lemma set_headers_step (c : Client) (w : World) r c' w' :
  set_headers c w = (r, c', w') ->
  session_step c w c' w' /\
  forall headers, r = Ok headers -> headers = auth_headers (token c').
Proof.
  rewrite set_headers_run. destruct (truthy (token c)).
  - intros [= <- <- <-]. split; [apply session_step_refl|].
    now intros headers [= <-].
  - destruct (update_token c w) as [[[[]|e] c1] w1] eqn:U;
      intros [= <- <- <-]; (split; [eapply update_token_step, U|]).
    + now intros headers [= <-].
    + discriminate.
Qed.

Lemma token_phase_run (c : Client) (w : World) :
  token_phase c w =
  match update_token c w with
  | (Ok _, c1, w1) => set_headers c1 w1
  | (Raise e, c1, w1) => (Raise e, c1, w1)
  end.
Proof.
  unfold token_phase, bind.
  destruct (update_token c w) as [[[[]|e] c1] w1]; reflexivity.
Qed.

Lemma token_phase_step (c : Client) (w : World) r c' w' :
  token_phase c w = (r, c', w') ->
  session_step c w c' w' /\
  forall headers, r = Ok headers -> headers = auth_headers (token c').
Proof.
  rewrite token_phase_run.
  destruct (update_token c w) as [[[[]|e] c1] w1] eqn:U.
  - intros H. apply set_headers_step in H as [Hstep Hh].
    split; [|exact Hh].
    eapply session_step_trans; [eapply update_token_step, U | exact Hstep].
  - intros [= <- <- <-]. split; [eapply update_token_step, U | discriminate].
Qed.

(** ** The dispatcher *)

Lemma parse_response_returns (response : Response) :
  exists d, parse_response response = Ok d.
Proof.
  unfold parse_response.
  destruct (for_each_parse_line (split_on NL (strip (text response))) ∅)
    as (d & Hd & _).
  now exists d.
Qed.

(** The [try] statement in one step. Without a known method nothing is
    sent and reading [response] fails; with one, the request goes out,
    a transport error is wrapped, and a response of any status is
    line-parsed. *)
Lemma dispatch_run upper codes url headers data method (c : Client) (w : World) :
  dispatch upper codes url headers data method c w =
  match known_method upper method with
  | None => (Raise UnboundLocalError, c, w)
  | Some m =>
      match transport (api_request m url headers data) c w with
      | (Ok response, c1, w1) =>
          (parse_response response, c1, printed w1 (diagnostics response))
      | (Raise e, c1, w1) =>
          (match as_RequestException e with
           | Some msg =>
               Raise (UnitedPaymentAPIException (u "Request failed: " ++ msg))
           | None => Raise e
           end, c1, w1)
      end
  end.
Proof.
  assert (Sent : forall m,
    try_except_RequestException
      (response <- (r <- transport (api_request m url headers data) ;;
                    ret (Some r)) ;;
       response <- read_local response ;;
       handle_response_errors codes response ;;
       lift (parse_response response))
      (fun msg =>
         raise (UnitedPaymentAPIException (u "Request failed: " ++ msg))) c w
    = match transport (api_request m url headers data) c w with
      | (Ok response, c1, w1) =>
          (parse_response response, c1, printed w1 (diagnostics response))
      | (Raise e, c1, w1) =>
          (match as_RequestException e with
           | Some msg =>
               Raise (UnitedPaymentAPIException (u "Request failed: " ++ msg))
           | None => Raise e
           end, c1, w1)
      end).
  { intros m. unfold try_except_RequestException, bind at 1 2 3.
    destruct (transport (api_request m url headers data) c w)
      as [[[response|e] c1] w1]; simpl.
    - unfold bind, lift. rewrite handle_response_errors_run.
      destruct (parse_response_returns response) as [d ->]. reflexivity.
    - destruct (as_RequestException e); reflexivity. }
  unfold dispatch, known_method.
  destruct (bool_decide (upper method = u "GET")); [exact (Sent GET)|].
  destruct (bool_decide (upper method = u "POST")); [exact (Sent POST)|].
  reflexivity.
Qed.

Lemma make_request_run upper codes endpoint data method (c : Client) (w : World) :
  make_request upper codes endpoint data method c w =
  match token_phase c w with
  | (Ok headers, c1, w1) =>
      dispatch upper codes (base_url c ++ endpoint) headers data method c1 w1
  | (Raise e, c1, w1) => (Raise e, c1, w1)
  end.
Proof.
  rewrite token_phase_run. unfold make_request, bind at 1 2 3, self.
  destruct (update_token c w) as [[[[]|e] c0] w0] eqn:U; [|reflexivity].
  apply update_token_step in U as (_ & -> & _).
  destruct (set_headers c0 w0) as [[[headers|e] c1] w1]; reflexivity.
Qed.

Lemma pay_by_link_qr_code_run codes email amount installment telephone
    member_id order_id description (c : Client) (w : World) :
  pay_by_link_qr_code codes email amount installment telephone member_id
    order_id description c w =
  match set_headers c w with
  | (Ok headers, c1, w1) =>
      match transport (pay_link_request (base_url c) headers email amount
                         installment telephone member_id order_id description)
              c1 w1 with
      | (Ok response, c2, w2) =>
          (Ok (text response), c2, printed w2 (diagnostics response))
      | (Raise e, c2, w2) => (Raise e, c2, w2)
      end
  | (Raise e, c1, w1) => (Raise e, c1, w1)
  end.
Proof.
  unfold pay_by_link_qr_code, bind at 1 2, self.
  destruct (set_headers c w) as [[[headers|e] c1] w1]; [|reflexivity].
  unfold bind, requests_post, pay_link_request, api_request.
  match goal with
  | |- context [transport ?req c1 w1] =>
      destruct (transport req c1 w1) as [[[response|e] c2] w2]
  end; [|reflexivity].
  now rewrite handle_response_errors_run.
Qed.

(** ** Error detection *)

(** C1. [handle_response_errors] does not raise for a response whose status
    is not 200 and whose body decodes to an object holding, under
    [errorCode] or [error], a code of the catalog: it returns, with the
    instance and the world as they were. The guard [response_data is dict]
    keeps the lookup from running. *)
Theorem handle_response_errors_ignores_known_code
    (codes : gmap str str) (response : Response) (d : list (str * pyval))
    (code message : str) (c : Client) (w : World) :
  status_code response <> 200 ->
  json_body response = inl (JsonDict d) ->
  assoc_get d (u "errorCode") = PyStr code \/
    assoc_get d (u "error") = PyStr code ->
  codes !! code = Some message ->
  handle_response_errors codes response c w = (Ok tt, c, w).
Proof.
  intros _ Hjson _ _. rewrite handle_response_errors_run.
  unfold diagnostics. rewrite Hjson.
  destruct (status_code response =? 200); now rewrite printed_nil.
Qed.

Lemma handle_response_errors_ignores_known_code_witness :
  handle_response_errors sample_codes known_error_response
    (sample_client (PyStr (u "tok-1")) (Some 1000)) (sample_world 0 [])
  = (Ok tt, sample_client (PyStr (u "tok-1")) (Some 1000), sample_world 0 []).
Proof.
  apply (handle_response_errors_ignores_known_code sample_codes
           known_error_response [(u "errorCode", PyStr (u "101"))]
           (u "101") (u "Invalid amount")).
  - simpl. lia.
  - reflexivity.
  - left. reflexivity.
  - vm_compute. reflexivity.
Defined.

(** ** Session manager *)

(** C3. [update_token] performs a login exactly when no expiry is recorded
    or the clock is at or after the recorded expiry: then it is one call of
    [login], and its request to [/auth/] is the one request sent. The
    comparison is inclusive, a token whose expiry is the current instant is
    refreshed. Otherwise it returns at once, with the instance (token and
    expiry) and the world unchanged. *)
Theorem update_token_login_iff_expired (c : Client) (w : World)
    r (c' : Client) (w' : World) :
  update_token c w = (r, c', w') ->
  (sent w' = sent w ++ [login_request c] <->
   token_expiry c = None \/
   exists expiry, token_expiry c = Some expiry /\ expiry <= clock w) /\
  (token_expiry c = None \/ token_expiry c = Some (clock w) ->
   login c w = (r, c', w')) /\
  (forall expiry, token_expiry c = Some expiry ->
     (expiry <= clock w -> login c w = (r, c', w')) /\
     (clock w < expiry -> r = Ok tt /\ c' = c /\ w' = w)).
Proof.
  intros H.
  assert (E : expired c w <->
              token_expiry c = None \/
              exists expiry, token_expiry c = Some expiry /\ expiry <= clock w).
  { unfold expired. destruct (token_expiry c) as [expiry|].
    - split; [eauto | intros [?|(? & [= <-] & ?)]; [discriminate | assumption]].
    - tauto. }
  destruct (update_token_cases c w) as [[Hfresh U]|[Hexp U]];
    rewrite U in H.
  - injection H as <- <- <-. split; [|split].
    + rewrite <- E. split; [|tauto].
      intros Hs. apply (f_equal length) in Hs.
      rewrite length_app in Hs. simpl in Hs. lia.
    + intros Hnone. exfalso. apply Hfresh, E.
      destruct Hnone as [?|?]; [now left | right; eexists; split; [eassumption | lia]].
    + intros expiry He. split; [|tauto].
      intros Hle. exfalso. apply Hfresh, E. eauto.
  - split; [|split].
    + rewrite <- E. split; [tauto|]. intros _.
      now apply login_spec in H as [Hs _].
    + intros _. exact H.
    + intros expiry He. split; [intros _; exact H|].
      intros Hlt. exfalso. unfold expired in Hexp. rewrite He in Hexp. lia.
Qed.

Lemma update_token_login_iff_expired_witness :
  login (sample_client (PyStr (u "tok-1")) (Some 1000))
        (sample_world 1000 [token_reply])
  = (Ok tt, sample_client (PyStr (u "tok-2")) (Some (251000 + minutes 57)),
     {| clock := 251000; network := [];
        sent := [login_request (sample_client (PyStr (u "tok-1")) (Some 1000))];
        stdout := []; logins := [(251000, PyStr (u "tok-2"))] |}).
Proof.
  apply (update_token_login_iff_expired
           (sample_client (PyStr (u "tok-1")) (Some 1000))
           (sample_world 1000 [token_reply])).
  - reflexivity.
  - right. reflexivity.
Defined.

(** C4. A login whose response has a status other than 200 raises
    [UnitedPaymentAPIException('Failed to login and retrieve token.')] and
    leaves the instance, so the stored token and its expiry, as they were;
    the one request sent is the login request. *)
Theorem login_failure_keeps_session (c : Client) (w : World)
    (o : Outcome) (rest : list Outcome) (response : Response) :
  network w = o :: rest ->
  reply o = inl response ->
  status_code response <> 200 ->
  exists w',
    login c w =
      (Raise (UnitedPaymentAPIException
                (u "Failed to login and retrieve token.")), c, w') /\
    sent w' = sent w ++ [login_request c] /\
    logins w' = logins w.
Proof.
  intros Hnet Hreply Hstatus.
  destruct (login_run c w) as (r1 & w1 & T & L).
  apply transport_run in T as (_ & Hsent & _ & Hlog & Hn).
  rewrite Hnet, Hreply in Hn. destruct Hn as (_ & _ & ->).
  apply Z.eqb_neq in Hstatus. rewrite Hstatus in L.
  exists w1. auto.
Qed.

Lemma login_failure_keeps_session_witness :
  exists w',
    login (sample_client (PyStr (u "tok-1")) (Some 1000))
          (sample_world 2000 [respond 401 (u "denied") (inr (u "Expecting value"))])
    = (Raise (UnitedPaymentAPIException
                (u "Failed to login and retrieve token.")),
       sample_client (PyStr (u "tok-1")) (Some 1000), w') /\
    sent w' = [] ++ [login_request (sample_client (PyStr (u "tok-1")) (Some 1000))] /\
    logins w' = [].
Proof.
  apply (login_failure_keeps_session
           (sample_client (PyStr (u "tok-1")) (Some 1000))
           (sample_world 2000 [respond 401 (u "denied") (inr (u "Expecting value"))])
           (respond 401 (u "denied") (inr (u "Expecting value"))) []
           {| status_code := 401; text := u "denied";
              json_body := inr (u "Expecting value") |}).
  - reflexivity.
  - reflexivity.
  - simpl. lia.
Defined.

(** ** Dispatch *)

Lemma known_method_None (upper : str -> str) (method : str) :
  upper method <> u "GET" -> upper method <> u "POST" ->
  known_method upper method = None.
Proof.
  intros G P. unfold known_method.
  rewrite !bool_decide_eq_false_2; auto.
Qed.

Lemma known_method_Some (upper : str -> str) (method : str) :
  upper method = u "GET" \/ upper method = u "POST" ->
  exists m, known_method upper method = Some m.
Proof.
  intros H. unfold known_method.
  destruct (bool_decide (upper method = u "GET")) eqn:G; [eauto|].
  destruct H as [H|H]; [apply bool_decide_eq_false in G; contradiction|].
  rewrite bool_decide_eq_true_2; eauto.
Qed.

(** The [try] statement leaves the instance and the login history alone;
    it sends one request when it knows the method and none otherwise. *)
Lemma dispatch_spec upper codes url headers data method
    (c : Client) (w : World) r c' w' :
  dispatch upper codes url headers data method c w = (r, c', w') ->
  c' = c /\ logins w' = logins w /\
  match known_method upper method with
  | None => r = Raise UnboundLocalError /\ w' = w
  | Some m => sent w' = sent w ++ [api_request m url headers data]
  end.
Proof.
  rewrite dispatch_run. destruct (known_method upper method) as [m|].
  - destruct (transport (api_request m url headers data) c w)
      as [[r1 c1] w1] eqn:T.
    apply transport_run in T as (-> & Hsent & _ & Hlog & _).
    destruct r1; intros [= <- <- <-]; auto.
  - intros [= <- <- <-]. auto.
Qed.

(** C6. A response with status 200 never makes the error detection pass
    raise, whatever its body, also a JSON object with a code of the
    catalog: [handle_response_errors] returns with nothing changed. And
    when [make_request], for the method GET or POST, has a token and
    receives a response with status 200, it returns the line-parsed
    mapping of the body of that response. *)
Theorem status_200_returns_parsed_body :
  (forall codes response c w,
     status_code response = 200 ->
     handle_response_errors codes response c w = (Ok tt, c, w)) /\
  (forall upper codes endpoint data method c w headers c1 w1 o rest response,
     upper method = u "GET" \/ upper method = u "POST" ->
     token_phase c w = (Ok headers, c1, w1) ->
     network w1 = o :: rest ->
     reply o = inl response ->
     status_code response = 200 ->
     exists d w2,
       make_request upper codes endpoint data method c w = (Ok d, c1, w2) /\
       parse_response response = Ok d).
Proof.
  split.
  - intros codes response c w Hs.
    rewrite handle_response_errors_run. unfold diagnostics.
    rewrite Hs. simpl. now rewrite printed_nil.
  - intros upper codes endpoint data method c w headers c1 w1 o rest response
      Hm Hphase Hnet Hreply Hs.
    rewrite make_request_run, Hphase, dispatch_run.
    destruct (known_method_Some upper method Hm) as [m ->].
    destruct (transport (api_request m (base_url c ++ endpoint) headers data)
                c1 w1) as [[r2 c2] w2] eqn:T.
    apply transport_run in T as (-> & _ & _ & _ & Hn).
    rewrite Hnet, Hreply in Hn. destruct Hn as (_ & _ & ->).
    destruct (parse_response_returns response) as [d Hd].
    exists d. eexists. rewrite Hd. split; reflexivity.
Qed.

Lemma status_200_returns_parsed_body_witness :
  handle_response_errors sample_codes known_error_response_200
    (sample_client (PyStr (u "tok-1")) (Some 1000)) (sample_world 0 [])
  = (Ok tt, sample_client (PyStr (u "tok-1")) (Some 1000), sample_world 0 []) /\
  exists d w2,
    make_request upper_ascii sample_codes (u "/transactions/reverse")
      [(u "transactionId", u "275")] (u "post")
      (sample_client (PyStr (u "tok-1")) (Some 1000))
      (sample_world 0 [ {| latency := 5; reply := inl known_error_response_200 |} ])
    = (Ok d, sample_client (PyStr (u "tok-1")) (Some 1000), w2) /\
    parse_response known_error_response_200 = Ok d.
Proof.
  split.
  - apply (proj1 status_200_returns_parsed_body). reflexivity.
  - apply (proj2 status_200_returns_parsed_body upper_ascii sample_codes
             (u "/transactions/reverse") [(u "transactionId", u "275")]
             (u "post")
             (sample_client (PyStr (u "tok-1")) (Some 1000))
             (sample_world 0
                [ {| latency := 5; reply := inl known_error_response_200 |} ])
             (auth_headers (PyStr (u "tok-1")))
             (sample_client (PyStr (u "tok-1")) (Some 1000))
             (sample_world 0
                [ {| latency := 5; reply := inl known_error_response_200 |} ])
             {| latency := 5; reply := inl known_error_response_200 |} []
             known_error_response_200).
    + right. reflexivity.
    + reflexivity.
    + reflexivity.
    + reflexivity.
    + reflexivity.
Defined.

(** ** The session invariant *)

Lemma discard_run {A} (m : M A) (c : Client) (w : World) r c' w' :
  discard m c w = (r, c', w') -> exists r0, m c w = (r0, c', w').
Proof.
  unfold discard, bind, ret.
  destruct (m c w) as [[[a|e] c1] w1]; intros [= <- <- <-]; eauto.
Qed.

Lemma make_request_change upper codes endpoint data method
    (c : Client) (w : World) r c' w' :
  make_request upper codes endpoint data method c w = (r, c', w') ->
  session_change c w c' w'.
Proof.
  rewrite make_request_run.
  destruct (token_phase c w) as [[[headers|e] c1] w1] eqn:P;
    apply token_phase_step in P as [(_ & _ & _ & Hch) _].
  - intros D. apply dispatch_spec in D as (-> & Hlog & _).
    eapply session_change_trans; [exact Hch | now left].
  - now intros [= <- <- <-].
Qed.

Lemma pay_by_link_qr_code_change codes email amount installment telephone
    member_id order_id description (c : Client) (w : World) r c' w' :
  pay_by_link_qr_code codes email amount installment telephone member_id
    order_id description c w = (r, c', w') ->
  session_change c w c' w'.
Proof.
  rewrite pay_by_link_qr_code_run.
  destruct (set_headers c w) as [[[headers|e] c1] w1] eqn:S;
    apply set_headers_step in S as [(_ & _ & _ & Hch) _].
  - match goal with
    | |- context [transport ?req c1 w1] =>
        destruct (transport req c1 w1) as [[r2 c2] w2] eqn:T
    end.
    apply transport_run in T as (-> & _ & _ & Hlog & _).
    destruct r2; intros [= <- <- <-];
      (eapply session_change_trans; [exact Hch | now left]).
  - now intros [= <- <- <-].
Qed.

Lemma run_call_change upper codes (call : method_call)
    (c : Client) (w : World) r c' w' :
  run_call upper codes call c w = (r, c', w') -> session_change c w c' w'.
Proof.
  destruct call; simpl; intros H.
  - now apply login_step in H as (_ & _ & _ & Hch).
  - apply discard_run in H as [r0 H]. rewrite is_token_expired_run in H.
    injection H as _ <- <-. apply session_change_refl.
  - now apply update_token_step in H as (_ & _ & _ & Hch).
  - apply discard_run in H as [r0 H].
    now apply set_headers_step in H as [(_ & _ & _ & Hch) _].
  - apply discard_run in H as [r0 H]. unfold lift in H.
    injection H as _ <- <-. apply session_change_refl.
  - rewrite handle_response_errors_run in H. injection H as _ <- <-.
    now left.
  - apply discard_run in H as [r0 H]. eapply make_request_change, H.
  - apply discard_run in H as [r0 H]. eapply pay_by_link_qr_code_change, H.
  - apply discard_run in H as [r0 H]. eapply make_request_change, H.
  - apply discard_run in H as [r0 H]. eapply make_request_change, H.
Qed.

(** C5. The session invariant. The instance that [__init__] returns
    satisfies it, and every call of a method keeps it: the stored token and
    expiry are both [None], no login having completed, or they are the token
    received by the latest completed login and the time of that login plus
    57 minutes. A call changes the two fields by a completed login only:
    either the instance and the login history are as before, or the fields
    are the ones stored by the last login completed during the call. *)
Theorem session_invariant_preserved :
  (forall base_url email password w c w',
     init base_url email password w = (Ok c, w') -> session_inv c w') /\
  (forall upper codes call c w r c' w',
     run_call upper codes call c w = (r, c', w') ->
     session_change c w c' w' /\
     (session_inv c w -> session_inv c' w')).
Proof.
  split.
  - intros b e p w c w'. unfold init.
    destruct (login _ w) as [[[[]|err] c1] w1] eqn:L; [|discriminate].
    intros [= <- <-].
    apply login_spec in L as (_ & _ & _ & _ & [([? ?] & _)|(_ & Hlog & Hexp)]);
      [discriminate|].
    right. exists (clock w1). split; [|exact Hexp].
    rewrite Hlog. apply last_snoc.
  - intros upper codes call c w r c' w' H.
    apply run_call_change in H. split; [exact H|].
    now apply session_change_inv.
Qed.

Lemma session_invariant_preserved_witness :
  session_inv (sample_client (PyStr (u "tok-2")) (Some (251000 + minutes 57)))
    {| clock := 251000; network := [token_reply];
       sent := [login_request (sample_client PyNone None)];
       stdout := []; logins := [(251000, PyStr (u "tok-2"))] |} /\
  session_inv (sample_client (PyStr (u "tok-2")) (Some (501000 + minutes 57)))
    {| clock := 501000; network := [];
       sent := [login_request (sample_client PyNone None);
                login_request (sample_client PyNone None)];
       stdout := [];
       logins := [(251000, PyStr (u "tok-2")); (501000, PyStr (u "tok-2"))] |}.
Proof.
  assert (I : session_inv
                (sample_client (PyStr (u "tok-2")) (Some (251000 + minutes 57)))
                {| clock := 251000; network := [token_reply];
                   sent := [login_request (sample_client PyNone None)];
                   stdout := []; logins := [(251000, PyStr (u "tok-2"))] |}).
  { apply (proj1 session_invariant_preserved (u "https://gw.example/api")
             (u "shop@example.com") (u "secret")
             (sample_world 1000 [token_reply; token_reply])).
    reflexivity. }
  split; [exact I|].
  apply (proj2 session_invariant_preserved upper_ascii sample_codes
           call_login
           (sample_client (PyStr (u "tok-2")) (Some (251000 + minutes 57)))
           {| clock := 251000; network := [token_reply];
              sent := [login_request (sample_client PyNone None)];
              stdout := []; logins := [(251000, PyStr (u "tok-2"))] |}
           (Ok tt)).
  - reflexivity.
  - exact I.
Defined.

(** ** Headers *)

Lemma auth_headers_no_authorization (tok : pyval) :
  auth_headers tok !! u "Authorization" = None.
Proof.
  unfold auth_headers.
  rewrite lookup_insert_ne by (vm_compute; discriminate).
  apply lookup_singleton_ne. vm_compute. discriminate.
Qed.

Lemma authorization_headers_lookup (tok : pyval) :
  authorization_headers tok !! u "Authorization"
  = Some (u "Bearer " ++ py_str tok).
Proof. unfold authorization_headers. apply lookup_insert_eq. Qed.

(** C7, as worded. The headers that [set_headers] builds are not the pair
    [Authorization], [Content-Type]: they hold no [Authorization] entry. *)
Lemma set_headers_not_authorization : ~ headers_are_authorization.
Proof.
  intros H.
  specialize (H (sample_client (PyStr (u "tok-1")) (Some 1000))
                (sample_world 0 []) (auth_headers (PyStr (u "tok-1")))
                (sample_client (PyStr (u "tok-1")) (Some 1000))
                (sample_world 0 []) eq_refl).
  apply (f_equal (fun h : gmap str str => h !! u "Authorization")) in H.
  rewrite auth_headers_no_authorization, authorization_headers_lookup in H.
  discriminate.
Qed.

(** C7, amended. The headers built by [set_headers] are the pair
    [x-auth-token: "Bearer " + str(token)], [Content-Type:
    application/json], for the token the instance holds when it returns.
    Every request that [make_request] or [pay_by_link_qr_code] sends is a
    login or the one request of the call, and that one carries these
    headers for the token held at the end of the call. *)
Theorem requests_carry_x_auth_token :
  (forall (c : Client) (w : World) headers c' w',
     set_headers c w = (Ok headers, c', w') ->
     headers = auth_headers (token c')) /\
  (forall upper codes endpoint data method (c : Client) (w : World) r c' w',
     make_request upper codes endpoint data method c w = (r, c', w') ->
     exists logins_sent api_sent,
       sent w' = sent w ++ logins_sent ++ api_sent /\
       Forall (fun req => req = login_request c) logins_sent /\
       (api_sent = [] \/
        exists m, api_sent = [api_request m (base_url c ++ endpoint)
                                (auth_headers (token c')) data])) /\
  (forall codes email amount installment telephone member_id order_id
          description (c : Client) (w : World) r c' w',
     pay_by_link_qr_code codes email amount installment telephone member_id
       order_id description c w = (r, c', w') ->
     exists logins_sent api_sent,
       sent w' = sent w ++ logins_sent ++ api_sent /\
       Forall (fun req => req = login_request c) logins_sent /\
       (api_sent = [] \/
        api_sent = [pay_link_request (base_url c) (auth_headers (token c'))
                      email amount installment telephone member_id order_id
                      description])).
Proof.
  split; [|split].
  - intros c w headers c' w' H.
    apply set_headers_step in H as [_ Hh]. now apply Hh.
  - intros upper codes endpoint data method c w r c' w'.
    rewrite make_request_run.
    destruct (token_phase c w) as [[[headers|e] c1] w1] eqn:P;
      apply token_phase_step in P as [(_ & _ & (extra & Hs & Hf) & _) Hh].
    + intros D. apply dispatch_spec in D as (-> & _ & Hd).
      rewrite (Hh headers eq_refl) in Hd.
      destruct (known_method upper method) as [m|].
      * exists extra. eexists. split; [|split; [exact Hf | right; eauto]].
        rewrite Hd, Hs. now rewrite <- app_assoc.
      * destruct Hd as [_ ->]. exists extra, [].
        rewrite app_nil_r. auto.
    + intros [= <- <- <-]. exists extra, []. rewrite app_nil_r. auto.
  - intros codes email amount installment telephone member_id order_id
      description c w r c' w'.
    rewrite pay_by_link_qr_code_run.
    destruct (set_headers c w) as [[[headers|e] c1] w1] eqn:S;
      apply set_headers_step in S as [(_ & _ & (extra & Hs & Hf) & _) Hh].
    + rewrite (Hh headers eq_refl).
      match goal with
      | |- context [transport ?req c1 w1] =>
          destruct (transport req c1 w1) as [[r2 c2] w2] eqn:T
      end.
      apply transport_run in T as (-> & Hsent & _ & _ & _).
      assert (Hgoal : forall w3, sent w3 = sent w2 ->
        exists logins_sent api_sent,
          sent w3 = sent w ++ logins_sent ++ api_sent /\
          Forall (fun req => req = login_request c) logins_sent /\
          (api_sent = [] \/
           api_sent = [pay_link_request (base_url c) (auth_headers (token c1))
                         email amount installment telephone member_id order_id
                         description])).
      { intros w3 ->. exists extra. eexists. split; [|split; [exact Hf | right; eauto]].
        rewrite Hsent, Hs. now rewrite <- app_assoc. }
      destruct r2; intros [= <- <- <-]; now apply Hgoal.
    + intros [= <- <- <-]. exists extra, []. rewrite app_nil_r. auto.
Qed.

Lemma requests_carry_x_auth_token_witness :
  {[ u "x-auth-token" := u "Bearer tok-2";
     u "Content-Type" := u "application/json" ]}
  = auth_headers
      (token (sample_client (PyStr (u "tok-2")) (Some (251000 + minutes 57)))).
Proof.
  apply (proj1 requests_carry_x_auth_token
           (sample_client PyNone None) (sample_world 1000 [token_reply])
           {[ u "x-auth-token" := u "Bearer tok-2";
              u "Content-Type" := u "application/json" ]}
           (sample_client (PyStr (u "tok-2")) (Some (251000 + minutes 57)))
           {| clock := 251000; network := [];
              sent := [login_request (sample_client PyNone None)];
              stdout := []; logins := [(251000, PyStr (u "tok-2"))] |}).
  reflexivity.
Defined.

(** ** Stale tokens *)

(** C9, as worded. With the empty string as token, which is not [None],
    and a passed expiry, [pay_by_link_qr_code] does log in. *)
Lemma pay_by_link_logs_in_on_empty_token : ~ pay_by_link_never_logs_in.
Proof.
  intros H.
  destruct (H sample_codes (u "buyer@example.com") None None None None None None
              (sample_client (PyStr []) (Some 1000))
              (sample_world 2000 [token_reply; respond 200 (u "ok") (inr [])])
              1000
              (Ok (u "ok"))
              (sample_client (PyStr (u "tok-2")) (Some (252000 + minutes 57)))
              {| clock := 502000; network := [];
                 sent := [login_request (sample_client (PyStr []) (Some 1000));
                          pay_link_request (u "https://gw.example/api")
                            (auth_headers (PyStr (u "tok-2")))
                            (u "buyer@example.com") None None None None None None];
                 stdout := []; logins := [(252000, PyStr (u "tok-2"))] |})
    as [Hlog _].
  - discriminate.
  - reflexivity.
  - simpl. lia.
  - reflexivity.
  - discriminate Hlog.
Qed.

(** C9, amended. With a token that is truthy (neither [None] nor empty)
    and expired, [pay_by_link_qr_code] performs no login: the instance and
    the login history stay as they are and the one request sent carries the
    stale token. [make_request], in the same state, starts with a login. *)
Theorem pay_by_link_sends_stale_token
    codes email amount installment telephone member_id order_id description
    (c : Client) (w : World) :
  truthy (token c) = true ->
  expired c w ->
  (forall r c' w',
     pay_by_link_qr_code codes email amount installment telephone member_id
       order_id description c w = (r, c', w') ->
     c' = c /\ logins w' = logins w /\
     sent w' = sent w ++
       [pay_link_request (base_url c) (auth_headers (token c)) email amount
          installment telephone member_id order_id description]) /\
  (forall upper endpoint data method r c' w',
     make_request upper codes endpoint data method c w = (r, c', w') ->
     exists more, sent w' = sent w ++ login_request c :: more).
Proof.
  intros Htok Hexp. split.
  - intros r c' w'. rewrite pay_by_link_qr_code_run, set_headers_run, Htok.
    match goal with
    | |- context [transport ?req c w] =>
        destruct (transport req c w) as [[r2 c2] w2] eqn:T
    end.
    apply transport_run in T as (-> & Hsent & _ & Hlog & _).
    destruct r2; intros [= <- <- <-]; auto.
  - intros upper endpoint data method r c' w'.
    rewrite make_request_run, token_phase_run.
    destruct (update_token_cases c w) as [[Hfresh _]|[_ ->]];
      [contradiction|].
    destruct (login c w) as [[[[]|e] c0] w0] eqn:L;
      pose proof (login_spec _ _ _ _ _ L) as (Hs0 & _ & _ & _ & _).
    + destruct (set_headers c0 w0) as [[[headers|e] c1] w1] eqn:S;
        apply set_headers_step in S as [(_ & _ & (extra & Hs1 & _) & _) _].
      * intros D. apply dispatch_spec in D as (_ & _ & Hd).
        destruct (known_method upper method) as [m|].
        -- eexists. rewrite Hd, Hs1, Hs0. rewrite <- !app_assoc. reflexivity.
        -- destruct Hd as [_ ->]. exists extra.
           rewrite Hs1, Hs0. now rewrite <- app_assoc.
      * intros [= <- <- <-]. exists extra.
        rewrite Hs1, Hs0. now rewrite <- app_assoc.
    + intros [= <- <- <-]. now exists [].
Qed.

Lemma pay_by_link_sends_stale_token_witness :
  exists more,
    sent {| clock := 502000; network := [];
            sent := [login_request (sample_client (PyStr (u "tok-1")) (Some 1000));
                     api_request POST (u "https://gw.example/api/transactions/reverse")
                       (auth_headers (PyStr (u "tok-2")))
                       [(u "transactionId", u "275")]];
            stdout := []; logins := [(252000, PyStr (u "tok-2"))] |}
    = sent (sample_world 2000 [token_reply; respond 200 (u "ok") (inr [])])
      ++ login_request (sample_client (PyStr (u "tok-1")) (Some 1000)) :: more.
Proof.
  apply (proj2 (pay_by_link_sends_stale_token sample_codes
                  (u "buyer@example.com") None None None None None None
                  (sample_client (PyStr (u "tok-1")) (Some 1000))
                  (sample_world 2000
                     [token_reply; respond 200 (u "ok") (inr [])])
                  eq_refl ltac:(unfold expired; simpl; lia))
           upper_ascii (u "/transactions/reverse")
           [(u "transactionId", u "275")] (u "POST")
           (Ok ∅)
           (sample_client (PyStr (u "tok-2")) (Some (252000 + minutes 57)))).
  reflexivity.
Defined.

(** ** Unknown methods *)

(** C10, as worded. With an expired token and a network that is down,
    [make_request] on the method PUT sends a request, the login, and fails
    with the [RequestException] of the transport. *)
Lemma unknown_method_may_send_login : ~ unknown_method_sends_nothing.
Proof.
  intros H.
  destruct (H upper_ascii sample_codes (u "/transactions/reverse")
              [(u "transactionId", u "275")] (u "PUT")
              (sample_client (PyStr (u "tok-1")) (Some 1000))
              (sample_world 2000 [])
              (Raise (RequestException []))
              (sample_client (PyStr (u "tok-1")) (Some 1000))
              {| clock := 2000; network := [];
                 sent := [login_request
                            (sample_client (PyStr (u "tok-1")) (Some 1000))];
                 stdout := []; logins := [] |})
    as [Hsent _].
  - vm_compute. discriminate.
  - vm_compute. discriminate.
  - reflexivity.
  - discriminate Hsent.
Qed.

(** C10, amended. With a method that is neither GET nor POST,
    [make_request] sends nothing beyond what its token phase sends. When
    the token phase returns, the call raises [UnboundLocalError] from the
    state the token phase left, and that error is no [RequestException],
    so it is not wrapped; when the token phase raises, the call raises the
    same error. With a token that is truthy and not expired the token phase
    does nothing, and the call fails with no request sent. *)
Theorem unknown_method_raises_unbound_local
    upper codes endpoint data method (c : Client) (w : World) :
  upper method <> u "GET" ->
  upper method <> u "POST" ->
  (forall headers c1 w1,
     token_phase c w = (Ok headers, c1, w1) ->
     make_request upper codes endpoint data method c w
     = (Raise UnboundLocalError, c1, w1)) /\
  (forall e c1 w1,
     token_phase c w = (Raise e, c1, w1) ->
     make_request upper codes endpoint data method c w = (Raise e, c1, w1)) /\
  (truthy (token c) = true -> ~ expired c w ->
   make_request upper codes endpoint data method c w
   = (Raise UnboundLocalError, c, w)) /\
  as_RequestException UnboundLocalError = None.
Proof.
  intros G P. pose proof (known_method_None upper method G P) as K.
  split; [|split; [|split]].
  - intros headers c1 w1 Hphase.
    rewrite make_request_run, Hphase, dispatch_run, K. reflexivity.
  - intros e c1 w1 Hphase. rewrite make_request_run, Hphase. reflexivity.
  - intros Htok Hfresh.
    rewrite make_request_run, token_phase_run.
    destruct (update_token_cases c w) as [[_ ->]|[Hexp _]]; [|contradiction].
    rewrite set_headers_run, Htok, dispatch_run, K. reflexivity.
  - reflexivity.
Qed.

Lemma unknown_method_raises_unbound_local_witness :
  make_request upper_ascii sample_codes (u "/transactions/reverse")
    [(u "transactionId", u "275")] (u "put")
    (sample_client (PyStr (u "tok-1")) (Some 1000)) (sample_world 0 [])
  = (Raise UnboundLocalError,
     sample_client (PyStr (u "tok-1")) (Some 1000), sample_world 0 []).
Proof.
  apply (proj1 (proj2 (proj2
           (unknown_method_raises_unbound_local upper_ascii sample_codes
              (u "/transactions/reverse") [(u "transactionId", u "275")]
              (u "put")
              (sample_client (PyStr (u "tok-1")) (Some 1000))
              (sample_world 0 [])
              ltac:(vm_compute; discriminate)
              ltac:(vm_compute; discriminate))))).
  - reflexivity.
  - unfold expired. simpl. lia.
Defined.

(** * Further properties *)

(** ** Shape of the parsed mapping *)

Lemma lstrip_suffix (s : str) : exists ws, s = ws ++ lstrip s.
Proof. destruct (lstrip_spec s) as (ws & H & _). eauto. Qed.

Lemma lstrip_fixed (s : str) :
  match s with
  | c :: _ => isspace c = false
  | [] => True
  end -> lstrip s = s.
Proof. destruct s as [|c s]; simpl; [reflexivity|]. now intros ->. Qed.

Lemma lstrip_idem (s : str) : lstrip (lstrip s) = lstrip s.
Proof.
  apply lstrip_fixed. now destruct (lstrip_spec s) as (_ & _ & _ & H).
Qed.

(** Trimming twice is trimming once. *)
Lemma strip_idem (s : str) : strip (strip s) = strip s.
Proof.
  unfold strip, rstrip.
  set (t := lstrip s).
  assert (Hfix : lstrip (rev (lstrip (rev t))) = rev (lstrip (rev t))).
  { destruct (lstrip_suffix (rev t)) as [ws Hws].
    apply (f_equal (@rev N)) in Hws.
    rewrite rev_involutive, rev_app_distr in Hws.
    apply lstrip_fixed.
    destruct (rev (lstrip (rev t))) as [|c r] eqn:R; [exact I|].
    subst t. destruct (lstrip_spec s) as (_ & _ & _ & Hhd).
    rewrite Hws in Hhd. exact Hhd. }
  rewrite Hfix, rev_involutive, lstrip_idem. reflexivity.
Qed.

Lemma has_sep_inside (sep a s b : str) :
  has_sep sep s -> has_sep sep (a ++ s ++ b).
Proof.
  intros (k & v & ->). exists (a ++ k), (v ++ b).
  now rewrite <- !app_assoc.
Qed.

Lemma piece_in_join (c : char) (pieces : list str) (piece : str) :
  piece ∈ pieces -> exists a b, join c pieces = a ++ piece ++ b.
Proof.
  induction pieces as [|p ps IH]; intros H.
  - now apply not_elem_of_nil in H.
  - apply elem_of_cons in H as [->|H].
    + destruct ps as [|q qs]; simpl.
      * exists [], []. now rewrite app_nil_r.
      * exists [], (c :: join c (q :: qs)). reflexivity.
    + destruct (IH H) as (a & b & Hj).
      destruct ps as [|q qs]; [now apply not_elem_of_nil in H|].
      exists (p ++ c :: a), b.
      change (join c (p :: q :: qs)) with (p ++ c :: join c (q :: qs)).
      rewrite Hj. now rewrite <- app_assoc.
Qed.

(** A separator in a line of the trimmed body is a separator in the
    body. *)
Lemma line_sep_in_body (body line : str) :
  line ∈ split_on NL (strip body) ->
  has_sep (u ": ") line -> has_sep (u ": ") body.
Proof.
  intros Hin Hsep.
  destruct (piece_in_join NL _ _ Hin) as (a & b & Hj).
  rewrite join_split_on in Hj.
  destruct (strip_spec body) as (ws1 & ws2 & Hb & _).
  rewrite Hb, Hj. apply has_sep_inside. now apply has_sep_inside.
Qed.

Lemma for_each_skip_all (lines : list str) (m : gmap str str) :
  Forall (fun line => contains (u ": ") line = false) lines ->
  for_each lines m parse_line = Ok m.
Proof.
  induction 1 as [|line lines Hline _ IH]; simpl; [reflexivity|].
  now rewrite (parse_line_skip _ _ Hline).
Qed.

(** Where the entries of the mapping come from: an entry of the result was
    in the mapping before the loop or is the trimmed cut of one of the
    lines. *)
Lemma for_each_entries (lines : list str) (m d : gmap str str) (k v : str) :
  for_each lines m parse_line = Ok d ->
  d !! k = Some v ->
  m !! k = Some v \/
  exists line k0 v0,
    line ∈ lines /\ first_cut (u ": ") line k0 v0 /\
    k = strip k0 /\ v = strip v0.
Proof.
  revert m. induction lines as [|line lines IH]; intros m; simpl.
  - intros [= <-] H. now left.
  - destruct (parse_line_cases m line) as [(k0 & v0 & Hcut & ->)|[_ ->]];
      simpl; intros Hd Hk.
    + destruct (IH _ Hd Hk) as [Hm|(l & k1 & v1 & Hin & Hc & Hk1 & Hv1)].
      * destruct (decide (strip k0 = k)) as [<-|Hne].
        -- rewrite lookup_insert_eq in Hm. injection Hm as <-.
           right. exists line, k0, v0. split; [apply list_elem_of_here | auto].
        -- rewrite lookup_insert_ne in Hm by exact Hne. now left.
      * right. exists l, k1, v1. split; [now apply list_elem_of_further | auto].
    + destruct (IH _ Hd Hk) as [Hm|(l & k1 & v1 & Hin & Hrest)].
      * now left.
      * right. exists l, k1, v1. split; [now apply list_elem_of_further | auto].
Qed.

(** X1. A body in which [": "] does not occur, such as compact JSON,
    parses to the empty mapping. *)
Theorem parse_response_without_separator (response : Response) :
  contains (u ": ") (text response) = false ->
  parse_response response = Ok ∅.
Proof.
  intros Hno. unfold parse_response. apply for_each_skip_all.
  apply Forall_forall. intros line Hin.
  destruct (contains (u ": ") line) eqn:C; [|reflexivity].
  apply contains_spec in C. apply (line_sep_in_body _ _ Hin) in C.
  apply contains_spec in C. congruence.
Qed.

Lemma parse_response_without_separator_witness :
  parse_response
    (text_response 200
       (u "{" ++ [34%N] ++ u "status" ++ [34%N] ++ u ":1}" ++ [NL] ++ u "ok"))
  = Ok ∅.
Proof.
  apply parse_response_without_separator. reflexivity.
Defined.

(** X2. Every entry of the mapping that [parse_response] returns is the
    trimmed cut, at its first [": "], of one of the lines of the trimmed
    body, and its key and its value carry no whitespace at either end. *)
Theorem parse_response_entries_trimmed (response : Response)
    (d : gmap str str) (k v : str) :
  parse_response response = Ok d ->
  d !! k = Some v ->
  (exists line k0 v0,
     line ∈ split_on NL (strip (text response)) /\
     first_cut (u ": ") line k0 v0 /\ k = strip k0 /\ v = strip v0) /\
  strip k = k /\ strip v = v.
Proof.
  intros Hd Hk. unfold parse_response in Hd.
  destruct (for_each_entries _ _ _ _ _ Hd Hk)
    as [Hempty|(line & k0 & v0 & Hin & Hcut & -> & ->)].
  - rewrite lookup_empty in Hempty. discriminate.
  - split; [eauto 10|]. split; apply strip_idem.
Qed.

Lemma parse_response_entries_trimmed_witness :
  (exists line k0 v0,
     line ∈ split_on NL (strip (u "  Key1 :  Val1  ")) /\
     first_cut (u ": ") line k0 v0 /\
     u "Key1" = strip k0 /\ u "Val1" = strip v0) /\
  strip (u "Key1") = u "Key1" /\ strip (u "Val1") = u "Val1".
Proof.
  apply (parse_response_entries_trimmed
           (text_response 200 (u "  Key1 :  Val1  "))
           {[ u "Key1" := u "Val1" ]}).
  - vm_compute. reflexivity.
  - apply lookup_singleton_eq.
Defined.

Lemma for_each_keeps_entry (lines : list str) (m d : gmap str str)
    (key val : str) :
  Forall (fun l => forall k' v', first_cut (u ": ") l k' v' -> strip k' <> key)
         lines ->
  m !! key = Some val ->
  for_each lines m parse_line = Ok d ->
  d !! key = Some val.
Proof.
  intros Hall. revert m.
  induction Hall as [|line lines Hline _ IH]; intros m Hm; simpl.
  - now intros [= <-].
  - destruct (parse_line_cases m line) as [(k0 & v0 & Hcut & ->)|[_ ->]];
      simpl; apply IH; [|exact Hm].
    rewrite lookup_insert_ne; [exact Hm | eauto].
Qed.

(** X3. When a key occurs on several lines the last of them wins: the
    entry that a line contributes is in the returned mapping whenever no
    later line cuts to the same trimmed key. *)
Theorem parse_response_last_line_wins (response : Response)
    (before after : list str) (line k v : str) :
  split_on NL (strip (text response)) = before ++ line :: after ->
  first_cut (u ": ") line k v ->
  Forall (fun l => forall k' v',
            first_cut (u ": ") l k' v' -> strip k' <> strip k) after ->
  exists d, parse_response response = Ok d /\
            d !! strip k = Some (strip v).
Proof.
  intros Hlines Hcut Hafter.
  destruct (parse_response_returns response) as [d Hd].
  exists d. split; [exact Hd|].
  unfold parse_response in Hd. rewrite Hlines, for_each_app in Hd.
  destruct (for_each before ∅ parse_line) as [m1|e]; [|discriminate].
  simpl in Hd.
  destruct (parse_line_cases m1 line) as [(k0 & v0 & Hcut0 & Hp)|[Hno _]].
  - destruct (first_cut_unique _ _ _ _ _ _ Hcut Hcut0) as [<- <-].
    rewrite Hp in Hd. simpl in Hd.
    eapply for_each_keeps_entry; [exact Hafter | | exact Hd].
    apply lookup_insert_eq.
  - exfalso. eauto using first_cut_has_sep.
Qed.

Lemma parse_response_last_line_wins_witness :
  exists d,
    parse_response
      (text_response 200 (u "a: 1" ++ NL :: u "a: 2" ++ NL :: u "b: 3")) = Ok d /\
    d !! strip (u "a") = Some (strip (u "2")).
Proof.
  apply (parse_response_last_line_wins
           (text_response 200 (u "a: 1" ++ NL :: u "a: 2" ++ NL :: u "b: 3"))
           [u "a: 1"] [u "b: 3"] (u "a: 2") (u "a") (u "2")).
  - reflexivity.
  - apply (partition_first_cut (u ": ") (u "a: 2")). reflexivity.
  - constructor; [|constructor]. intros k' v' Hcut.
    destruct (first_cut_unique _ _ _ _ _ _ Hcut
                (partition_first_cut (u ": ") (u "b: 3") (u "b") (u "3") eq_refl))
      as [-> _].
    vm_compute. discriminate.
Defined.

Lemma partition_after_plain_key (k v : str) :
  contains (u ": ") k = false ->
  partition (u ": ") (k ++ u ": " ++ v) = Some (k, v).
Proof.
  change (u ": ") with [58%N; 32%N].
  induction k as [|c k IH]; intros Hk.
  - reflexivity.
  - cbn [contains] in Hk. apply orb_false_iff in Hk as [Hstart Hrest].
    specialize (IH Hrest).
    assert (E : startswith [58%N; 32%N] ((c :: k) ++ [58%N; 32%N] ++ v) = false).
    { cbn [startswith app] in *. destruct (58 =? c)%N; [|reflexivity].
      destruct k as [|c2 k]; cbn [startswith app andb] in *; [reflexivity|].
      destruct (32 =? c2)%N; [discriminate | reflexivity]. }
    cbn [partition app] in *. rewrite E, IH. reflexivity.
Qed.

(** X4. A line is cut at its first separator only: when the text before a
    [": "] holds no separator itself, it is the key, and everything after
    that separator, further separators included, is the value. *)
Theorem parse_line_value_keeps_separators (m : gmap str str) (k v : str) :
  contains (u ": ") k = false ->
  parse_line m (k ++ u ": " ++ v) = Ok (<[strip k := strip v]> m).
Proof.
  intros Hk. apply parse_line_cut. now apply partition_after_plain_key.
Qed.

Lemma parse_line_value_keeps_separators_witness :
  parse_line ∅ (u "Message" ++ u ": " ++ u "Error: card declined")
  = Ok (<[strip (u "Message") := strip (u "Error: card declined")]> ∅).
Proof.
  apply parse_line_value_keeps_separators. reflexivity.
Defined.

(** ** Error detection, for every response *)


(** ** Login *)

Lemma minutes_57_positive : 0 < minutes 57.
Proof. unfold minutes. lia. Qed.

Lemma login_ok_fresh (c : Client) (w : World) c1 w1 :
  login c w = (Ok tt, c1, w1) -> ~ expired c1 w1.
Proof.
  intros L.
  apply login_spec in L as (_ & _ & _ & _ & [([e He] & _)|(_ & _ & Hexp)]);
    [discriminate|].
  unfold expired. rewrite Hexp. pose proof minutes_57_positive. lia.
Qed.

Lemma update_token_fresh (c : Client) (w : World) :
  ~ expired c w -> update_token c w = (Ok tt, c, w).
Proof.
  intros Hfresh. destruct (update_token_cases c w) as [[_ H]|[Hexp _]];
    [exact H | contradiction].
Qed.

Lemma login_raise_cases (c : Client) (w : World)
    (e : exn) (c' : Client) (w' : World) :
  login c w = (Raise e, c', w') ->
  c' = c /\ logins w' = logins w /\
  sent w' = sent w ++ [login_request c] /\
  ((exists msg, e = RequestException msg) \/
   e = UnitedPaymentAPIException (u "Failed to login and retrieve token.") \/
   (exists msg, e = JSONDecodeError msg) \/
   e = AttributeError).
Proof.
  intros L. pose proof (login_spec _ _ _ _ _ L) as (Hs & _ & _ & _ & Hc).
  destruct Hc as [(_ & -> & Hl)|(H & _)]; [|discriminate].
  repeat split; [exact Hl | exact Hs |].
  destruct (login_run c w) as (r1 & w1 & T & R). rewrite R in L.
  apply transport_run in T as (_ & _ & _ & _ & Hn).
  destruct r1 as [response|e1].
  - destruct (status_code response =? 200).
    + destruct (json_body response) as [[d|v]|msg]; simplify_eq; eauto 6.
    + simplify_eq. auto.
  - simplify_eq. left.
    destruct (network w) as [|o rest].
    + destruct Hn as (He & _). simplify_eq. eauto.
    + destruct Hn as (_ & _ & Hr). destruct (reply o); simplify_eq. eauto.
Qed.



(** X7. A login that returns leaves a token that is not expired: asked at
    once, [is_token_expired] answers [False] and [update_token] does
    nothing. *)
Theorem login_then_token_fresh (c : Client) (w : World)
    (c1 : Client) (w1 : World) :
  login c w = (Ok tt, c1, w1) ->
  is_token_expired c1 w1 = (Ok false, c1, w1) /\
  update_token c1 w1 = (Ok tt, c1, w1).
Proof.
  intros L. pose proof (login_ok_fresh _ _ _ _ L) as Hfresh.
  split; [|now apply update_token_fresh].
  rewrite is_token_expired_run. unfold expired in Hfresh.
  destruct (token_expiry c1) as [expiry|]; [|tauto].
  destruct (Z.leb_spec expiry (clock w1)); [contradiction | reflexivity].
Qed.

Lemma login_then_token_fresh_witness :
  is_token_expired
    (sample_client (PyStr (u "tok-2")) (Some (251000 + minutes 57)))
    {| clock := 251000; network := [];
       sent := [login_request (sample_client PyNone None)];
       stdout := []; logins := [(251000, PyStr (u "tok-2"))] |}
  = (Ok false,
     sample_client (PyStr (u "tok-2")) (Some (251000 + minutes 57)),
     {| clock := 251000; network := [];
        sent := [login_request (sample_client PyNone None)];
        stdout := []; logins := [(251000, PyStr (u "tok-2"))] |}).
Proof.
  apply (login_then_token_fresh (sample_client PyNone None)
           (sample_world 1000 [token_reply])).
  reflexivity.
Defined.

(** X8. A login answered with status 200 and a JSON object that has no
    [token] entry succeeds: it stores [None] as the token and sets the
    expiry. [set_headers] then builds the header ["Bearer None"] and does
    not log in again, the token not being expired. *)
Theorem login_without_token_field (c : Client) (w : World)
    (o : Outcome) (rest : list Outcome) (response : Response)
    (d : list (str * pyval)) :
  network w = o :: rest ->
  reply o = inl response ->
  status_code response = 200 ->
  json_body response = inl (JsonDict d) ->
  assoc_get d (u "token") = PyNone ->
  exists c1 w1 headers,
    login c w = (Ok tt, c1, w1) /\
    token c1 = PyNone /\
    token_expiry c1 = Some (clock w + latency o + minutes 57) /\
    set_headers c1 w1 = (Ok headers, c1, w1) /\
    headers !! u "x-auth-token" = Some (u "Bearer None").
Proof.
  intros Hnet Hreply Hs Hjson Htok.
  destruct (login_run c w) as (r1 & w1 & T & L).
  apply transport_run in T as (_ & _ & _ & _ & Hn).
  rewrite Hnet, Hreply in Hn. destruct Hn as (_ & Hclock & ->).
  rewrite Hs, Hjson, Htok in L. simpl in L.
  exists (set_token_expiry (Some (clock w1 + minutes 57)) (set_token PyNone c)),
    {| clock := clock w1; network := network w1; sent := sent w1;
       stdout := stdout w1; logins := logins w1 ++ [(clock w1, PyNone)] |},
    (auth_headers PyNone).
  split; [exact L|].
  split; [reflexivity|]. split; [simpl; now rewrite Hclock|]. split.
  - rewrite set_headers_run. simpl.
    rewrite update_token_fresh; [reflexivity|].
    eapply login_ok_fresh. exact L.
  - unfold auth_headers. apply lookup_insert_eq.
Qed.

Lemma login_without_token_field_witness :
  exists c1 w1 headers,
    login (sample_client PyNone None)
      (sample_world 1000 [respond 200 (u "{}") (inl (JsonDict []))])
    = (Ok tt, c1, w1) /\
    token c1 = PyNone /\
    token_expiry c1
      = Some (clock (sample_world 1000
                       [respond 200 (u "{}") (inl (JsonDict []))])
              + latency (respond 200 (u "{}") (inl (JsonDict [])))
              + minutes 57) /\
    set_headers c1 w1 = (Ok headers, c1, w1) /\
    headers !! u "x-auth-token" = Some (u "Bearer None").
Proof.
  apply (login_without_token_field (sample_client PyNone None)
           (sample_world 1000 [respond 200 (u "{}") (inl (JsonDict []))])
           (respond 200 (u "{}") (inl (JsonDict []))) []
           {| status_code := 200; text := u "{}";
              json_body := inl (JsonDict []) |} []);
    reflexivity.
Defined.

(** ** Requests of one call *)


Lemma set_headers_fresh (c : Client) (w : World) :
  ~ expired c w ->
  set_headers c w = (Ok (auth_headers (token c)), c, w).
Proof.
  intros Hfresh. rewrite set_headers_run, update_token_fresh by exact Hfresh.
  destruct (truthy (token c)); reflexivity.
Qed.


(** With a token that is not expired, [make_request] is its [try]
    statement, run on the instance and the world as they are. *)
Lemma make_request_fresh_run upper codes endpoint data method
    (c : Client) (w : World) :
  ~ expired c w ->
  make_request upper codes endpoint data method c w
  = dispatch upper codes (base_url c ++ endpoint) (auth_headers (token c))
      data method c w.
Proof.
  intros Hfresh.
  rewrite make_request_run, token_phase_run, update_token_fresh by exact Hfresh.
  now rewrite set_headers_fresh by exact Hfresh.
Qed.

(** X9. A transport failure of the request of [make_request] is wrapped:
    for the method GET or POST, once the token phase has returned, a
    failing transport makes the call raise
    [UnitedPaymentAPIException('Request failed: ' + str(e))]. *)
Theorem make_request_wraps_transport_error
    upper codes endpoint data method (c : Client) (w : World)
    headers (c1 : Client) (w1 : World) (o : Outcome) (rest : list Outcome)
    (msg : str) :
  upper method = u "GET" \/ upper method = u "POST" ->
  token_phase c w = (Ok headers, c1, w1) ->
  network w1 = o :: rest ->
  reply o = inr msg ->
  exists w2,
    make_request upper codes endpoint data method c w
    = (Raise (UnitedPaymentAPIException (u "Request failed: " ++ msg)),
       c1, w2) /\
    logins w2 = logins w1.
Proof.
  intros Hm Hphase Hnet Hreply.
  rewrite make_request_run, Hphase, dispatch_run.
  destruct (known_method_Some upper method Hm) as [m ->].
  destruct (transport (api_request m (base_url c ++ endpoint) headers data)
              c1 w1) as [[r2 c2] w2] eqn:T.
  apply transport_run in T as (-> & _ & _ & Hlog & Hn).
  rewrite Hnet, Hreply in Hn. destruct Hn as (_ & _ & ->).
  exists w2. auto.
Qed.

Lemma make_request_wraps_transport_error_witness :
  exists w2,
    make_request upper_ascii sample_codes (u "/transactions/refund")
      [(u "transactionId", u "275"); (u "amount", u "50")] (u "Post")
      (sample_client (PyStr (u "tok-1")) (Some 1000))
      (sample_world 0 [ {| latency := 30000000; reply := inr (u "timed out") |} ])
    = (Raise (UnitedPaymentAPIException (u "Request failed: " ++ u "timed out")),
       sample_client (PyStr (u "tok-1")) (Some 1000), w2) /\
    logins w2
    = logins (sample_world 0
                [ {| latency := 30000000; reply := inr (u "timed out") |} ]).
Proof.
  apply (make_request_wraps_transport_error upper_ascii sample_codes
           (u "/transactions/refund")
           [(u "transactionId", u "275"); (u "amount", u "50")] (u "Post")
           (sample_client (PyStr (u "tok-1")) (Some 1000))
           (sample_world 0
              [ {| latency := 30000000; reply := inr (u "timed out") |} ])
           (auth_headers (PyStr (u "tok-1")))
           (sample_client (PyStr (u "tok-1")) (Some 1000))
           (sample_world 0
              [ {| latency := 30000000; reply := inr (u "timed out") |} ])
           {| latency := 30000000; reply := inr (u "timed out") |} []
           (u "timed out")).
  - right. reflexivity.
  - reflexivity.
  - reflexivity.
  - reflexivity.
Defined.





(** X12. A token that is not expired is reused as it is: for the method
    GET or POST, [make_request] sends exactly one request, to the base URL
    followed by the endpoint, with the headers of the cached token and the
    payload it was given; no login is performed and the instance is left as
    it was. *)
Theorem make_request_reuses_fresh_token
    upper codes endpoint data method (m : http_method)
    (c : Client) (w : World) :
  ~ expired c w ->
  known_method upper method = Some m ->
  exists r w',
    make_request upper codes endpoint data method c w = (r, c, w') /\
    sent w' = sent w ++
      [api_request m (base_url c ++ endpoint) (auth_headers (token c)) data] /\
    logins w' = logins w.
Proof.
  intros Hfresh Hm. rewrite make_request_fresh_run by exact Hfresh.
  destruct (dispatch upper codes (base_url c ++ endpoint)
              (auth_headers (token c)) data method c w)
    as [[r c'] w'] eqn:D.
  apply dispatch_spec in D as (-> & Hlog & Hd). rewrite Hm in Hd.
  exists r, w'. auto.
Qed.

Lemma make_request_reuses_fresh_token_witness :
  exists r w',
    make_request upper_ascii sample_codes (u "/transactions/reverse")
      [(u "transactionId", u "275")] (u "post")
      (sample_client (PyStr (u "tok-1")) (Some 1000))
      (sample_world 999 [respond 200 (u "Status: OK") (inr [])])
    = (r, sample_client (PyStr (u "tok-1")) (Some 1000), w') /\
    sent w' = [] ++
      [api_request POST (u "https://gw.example/api" ++ u "/transactions/reverse")
         (auth_headers (PyStr (u "tok-1"))) [(u "transactionId", u "275")]] /\
    logins w' = [].
Proof.
  apply (make_request_reuses_fresh_token upper_ascii sample_codes
           (u "/transactions/reverse") [(u "transactionId", u "275")]
           (u "post") POST
           (sample_client (PyStr (u "tok-1")) (Some 1000))
           (sample_world 999 [respond 200 (u "Status: OK") (inr [])])).
  - unfold expired. simpl. lia.
  - reflexivity.
Defined.

(** X13. A failed refresh ends the call: when the token is expired and the
    login raises, [make_request] raises the error of the login as it is,
    also a [RequestException] of the transport, which it does not wrap;
    the login request is the only request sent and the instance is left as
    it was. *)
Theorem make_request_propagates_login_error
    upper codes endpoint data method (c : Client) (w : World)
    (e : exn) (c1 : Client) (w1 : World) :
  expired c w ->
  login c w = (Raise e, c1, w1) ->
  make_request upper codes endpoint data method c w = (Raise e, c, w1) /\
  sent w1 = sent w ++ [login_request c] /\
  logins w1 = logins w.
Proof.
  intros Hexp L. rewrite make_request_run, token_phase_run.
  destruct (update_token_cases c w) as [[Hfresh _]|[_ ->]]; [contradiction|].
  rewrite L. apply login_raise_cases in L as (-> & Hl & Hs & _). auto.
Qed.

Lemma make_request_propagates_login_error_witness :
  make_request upper_ascii sample_codes (u "/transactions/reverse")
    [(u "transactionId", u "275")] (u "POST")
    (sample_client (PyStr (u "tok-1")) (Some 1000))
    (sample_world 2000 [ {| latency := 7; reply := inr (u "refused") |} ])
  = (Raise (RequestException (u "refused")),
     sample_client (PyStr (u "tok-1")) (Some 1000),
     {| clock := 2007; network := [];
        sent := [login_request (sample_client (PyStr (u "tok-1")) (Some 1000))];
        stdout := []; logins := [] |}).
Proof.
  apply (make_request_propagates_login_error upper_ascii sample_codes
           (u "/transactions/reverse") [(u "transactionId", u "275")]
           (u "POST")
           (sample_client (PyStr (u "tok-1")) (Some 1000))
           (sample_world 2000 [ {| latency := 7; reply := inr (u "refused") |} ])
           (RequestException (u "refused"))
           (sample_client (PyStr (u "tok-1")) (Some 1000))).
  - unfold expired. simpl. lia.
  - reflexivity.
Defined.



(** ** Operation builders *)















